(** * DocBook-Editor: the tolerant parser and the preview's text tools

    A shallow embedding of [src/services/docbookParser.ts] (tokenizer and
    recursive-descent parser) and of the word highlighting and in-place text
    patching of [src/components/RenderedView.tsx], with the properties the
    specification states about them.

    A JavaScript string is a sequence of UTF-16 code units; the embedding
    takes the code units below 256, one [ascii] each, so a source string is a
    [string] and an offset is a [nat]. *)

From Stdlib Require Import String Ascii List Arith Bool Lia Sorted.
From Stdlib Require Import Decimal DecimalString DecimalNat.
Import ListNotations.
Local Open Scope string_scope.
Local Open Scope list_scope.
Local Open Scope nat_scope.

(** ** Characters and strings as the code uses them *)

Definition char_code (c : ascii) : nat := nat_of_ascii c.

Definition in_range (lo hi : nat) (c : ascii) : bool :=
  (lo <=? char_code c) && (char_code c <=? hi).

(** The class [[a-zA-Z0-9_:]] of tag names. *)
Definition is_name_char (c : ascii) : bool :=
  in_range 97 122 c || in_range 65 90 c || in_range 48 57 c
  || (c =? "_")%char || (c =? ":")%char.

(** The class [[a-zA-Z0-9_:-]] of attribute names. *)
Definition is_attr_char (c : ascii) : bool :=
  is_name_char c || (c =? "-")%char.

(** The class [\s] of a JavaScript regular expression, which is also what
    [String.prototype.trim] strips: tab, line feed, vertical tab, form feed,
    carriage return, space and (below 256) the no-break space. *)
Definition is_space (c : ascii) : bool :=
  in_range 9 13 c || (char_code c =? 32) || (char_code c =? 160).

Definition dquote : ascii := ascii_of_nat 34.
Definition squote : ascii := ascii_of_nat 39.

Definition not_lt (c : ascii) : bool := negb (c =? "<")%char.

(** [s.substring(0, n)] and [s.substring(n)]; both clamp at the length. *)
Fixpoint take (n : nat) (s : string) : string :=
  match n, s with
  | S n', String c r => String c (take n' r)
  | _, _ => ""
  end.

Fixpoint drop (n : nat) (s : string) : string :=
  match n, s with
  | S n', String _ r => drop n' r
  | _, _ => s
  end.

(** [s.substring(a, b)]: the arguments are swapped when [a > b]. *)
Definition substring (s : string) (a b : nat) : string :=
  take (Nat.max a b - Nat.min a b) (drop (Nat.min a b) s).

(** [s[i]], [undefined] past the end. *)
Definition char_at (s : string) (i : nat) : option ascii := String.get i s.

(** Length of the longest prefix whose characters all satisfy [p]: what a
    greedy [[class]*] consumes. *)
Fixpoint many (p : ascii -> bool) (s : string) : nat :=
  match s with
  | String c r => if p c then S (many p r) else 0
  | "" => 0
  end.

(** Whether [s] starts with the character [c]. *)
Definition head_is (c : ascii) (s : string) : bool :=
  match s with
  | String x _ => (x =? c)%char
  | "" => false
  end.

Fixpoint all_chars (p : ascii -> bool) (s : string) : bool :=
  match s with
  | String c r => p c && all_chars p r
  | "" => true
  end.

Definition ends_with (s suffix : string) : bool :=
  (String.length suffix <=? String.length s)
  && (drop (String.length s - String.length suffix) s =? suffix)%string.

Fixpoint trim_end (s : string) : string :=
  match s with
  | "" => ""
  | String c r =>
      match trim_end r with
      | "" => if is_space c then "" else String c ""
      | r' => String c r'
      end
  end.

(** [s.trim()] *)
Definition trim (s : string) : string := trim_end (drop (many is_space s) s).

(** [toLowerCase] on the letters A-Z. The code applies it to tag names only,
    which the token grammar restricts to [[a-zA-Z0-9_:]]. *)
Definition to_lower (c : ascii) : ascii :=
  if in_range 65 90 c then ascii_of_nat (char_code c + 32) else c.

Fixpoint toLowerCase (s : string) : string :=
  match s with
  | "" => ""
  | String c r => String (to_lower c) (toLowerCase r)
  end.

(** ** Tokens *)

Inductive TokenType := open | close | text | comment | self_closing.

Definition TokenType_eqb (a b : TokenType) : bool :=
  match a, b with
  | open, open | close, close | text, text
  | comment, comment | self_closing, self_closing => true
  | _, _ => false
  end.

(** A JavaScript object with string keys, read by key and written by
    [o[key] = value]. *)
Definition Dict := list (string * string).

Fixpoint lookup (key : string) (o : Dict) : option string :=
  match o with
  | [] => None
  | (k, v) :: o' => if (k =? key)%string then Some v else lookup key o'
  end.

Fixpoint assign (key value : string) (o : Dict) : Dict :=
  match o with
  | [] => [(key, value)]
  | (k, v) :: o' =>
      if (k =? key)%string then (k, value) :: o' else (k, v) :: assign key value o'
  end.

(** [{...a, ...b}] *)
Definition spread (a b : Dict) : Dict :=
  fold_left (fun o kv => assign (fst kv) (snd kv) o) b a.

Record Token := {
  type : TokenType;
  tag : option string;
  attributes : option Dict;
  content : option string;
  startIndex : nat;
  endIndex : nat
}.

(** ** Tokenizer *)

(** *** The four alternatives of [tokenRegex]

    Each matcher is given the input from the position under test and returns
    the length of the match. The alternatives never need backtracking: every
    greedy class is followed by a character outside the class. *)

(** [(?:.|\s)*?-->]: any characters up to the nearest terminator. *)
Fixpoint comment_end (s : string) : option nat :=
  match s with
  | "" => None
  | String _ r =>
      if prefix "-->" s then Some 3 else option_map S (comment_end r)
  end.

(** [<!--(?:.|\s)*?-->] *)
Definition match_comment (s : string) : option nat :=
  if prefix "<!--" s then option_map (Nat.add 4) (comment_end (drop 4 s))
  else None.

(** [<\/[a-zA-Z0-9_:]+>] *)
Definition match_closeTag (s : string) : option nat :=
  match s with
  | String c1 (String c2 r) =>
      if (c1 =? "<")%char && (c2 =? "/")%char then
        let n := many is_name_char r in
        if n =? 0 then None
        else if head_is ">" (drop n r) then Some (n + 3)
        else None
      else None
  | _ => None
  end.

(** Where the matcher stands inside [(?:\s+NAME=VALUE)*\s*\/?>], the rest of
    the third alternative after the tag name; NAME is [[a-zA-Z0-9_:-]+] and
    VALUE a run without double quote between double quotes, or a run without
    single quote between single quotes. *)
Inductive OpenState :=
| AfterItem    (* after the tag name or a quoted value *)
| InSpace      (* inside [\s+] or the final [\s*] *)
| InAttrName   (* inside [[a-zA-Z0-9_:-]+] *)
| AfterEq      (* after [=] *)
| InDouble     (* inside a double-quoted VALUE *)
| InSingle     (* inside a single-quoted VALUE *)
| AfterSlash.  (* after [\/] *)

Fixpoint open_tail (st : OpenState) (s : string) : option nat :=
  match s with
  | "" => None
  | String c r =>
      let go st' := option_map S (open_tail st' r) in
      match st with
      | AfterItem =>
          if is_space c then go InSpace
          else if (c =? "/")%char then go AfterSlash
          else if (c =? ">")%char then Some 1
          else None
      | InSpace =>
          if is_space c then go InSpace
          else if is_attr_char c then go InAttrName
          else if (c =? "/")%char then go AfterSlash
          else if (c =? ">")%char then Some 1
          else None
      | InAttrName =>
          if is_attr_char c then go InAttrName
          else if (c =? "=")%char then go AfterEq
          else None
      | AfterEq =>
          if (c =? dquote)%char then go InDouble
          else if (c =? squote)%char then go InSingle
          else None
      | InDouble => if (c =? dquote)%char then go AfterItem else go InDouble
      | InSingle => if (c =? squote)%char then go AfterItem else go InSingle
      | AfterSlash => if (c =? ">")%char then Some 1 else None
      end
  end.

(** [<[a-zA-Z0-9_:]+(?:\s+NAME=VALUE)*\s*\/?>] *)
Definition match_openTag (s : string) : option nat :=
  match s with
  | String c r =>
      if (c =? "<")%char then
        let n := many is_name_char r in
        if n =? 0 then None
        else option_map (fun k => 1 + n + k) (open_tail AfterItem (drop n r))
      else None
  | "" => None
  end.

(** [[^<]+] *)
Definition match_text (s : string) : option nat :=
  let n := many not_lt s in
  if n =? 0 then None else Some n.

Inductive Alternative := Comment | CloseTag | OpenTag | Text.

(** One attempt of [tokenRegex] at the head of [s]: the alternatives in their
    order, with the capture group that matched and the length of the match. *)
Definition tokenRegex_at (s : string) : option (Alternative * nat) :=
  match match_comment s with
  | Some n => Some (Comment, n)
  | None =>
  match match_closeTag s with
  | Some n => Some (CloseTag, n)
  | None =>
  match match_openTag s with
  | Some n => Some (OpenTag, n)
  | None =>
  match match_text s with
  | Some n => Some (Text, n)
  | None => None
  end end end end.

(** *** Attributes of an open tag *)

(** One attempt of [attributeRegex] at the head of [s]: a NAME, [\s*=\s*] and
    a quoted VALUE. Returns the length of the match, the key (group 1) and the
    value (group 2 or 3, whichever took part: [val1 ?? val2]). *)
Definition attributeRegex_at (s : string) : option (nat * string * string) :=
  let n := many is_attr_char s in
  if n =? 0 then None
  else
    let s1 := drop n s in
    let w1 := many is_space s1 in
    if head_is "=" (drop w1 s1) then
      let s2 := drop (w1 + 1) s1 in
      let w2 := many is_space s2 in
      match drop w2 s2 with
      | String q s3 =>
          if (q =? dquote)%char || (q =? squote)%char then
            let v := many (fun c => negb (c =? q)%char) s3 in
            if v <? String.length s3
            then Some (n + w1 + 1 + w2 + 1 + v + 1, take n s, take v s3)
            else None
          else None
      | "" => None
      end
    else None.

(** [attributes[key] = value] on an object literal: the key [__proto__] is
    the prototype accessor, and giving it a string changes nothing. *)
Definition set_attribute (key value : string) (attributes : Dict) : Dict :=
  if (key =? "__proto__")%string then attributes
  else assign key value attributes.

(** The loop [while ((attrMatch = attributeRegex.exec(openTag)) !== null)]:
    the search moves on by one character where the expression fails and
    resumes after a match; [skip] counts the characters of the last match
    still to pass. *)
Fixpoint attributes_from (s : string) (skip : nat) (attributes : Dict) : Dict :=
  match s with
  | "" => attributes
  | String _ r =>
      match skip with
      | S k => attributes_from r k attributes
      | 0 =>
          match attributeRegex_at s with
          | Some (len, key, value) =>
              attributes_from r (len - 1) (set_attribute key value attributes)
          | None => attributes_from r 0 attributes
          end
      end
  end.

(** [openTag.match(/<([a-zA-Z0-9_:]+)/)], group 1 of the first match. *)
Fixpoint tagMatch (s : string) : option string :=
  match s with
  | "" => None
  | String c r =>
      if (c =? "<")%char && negb (many is_name_char r =? 0)
      then Some (take (many is_name_char r) r)
      else tagMatch r
  end.

(** [s.slice(from, -back)] *)
Definition slice (s : string) (from back : nat) : string :=
  take (String.length s - back - from) (drop from s).

(** *** The body of the tokenizer loop: the tokens pushed for one match *)

Definition push_token (alt : Alternative) (fullMatch : string)
    (startIndex : nat) : list Token :=
  let endIndex := startIndex + String.length fullMatch in
  match alt with
  | Comment =>
      [ {| type := comment; tag := None; attributes := None;
           content := Some fullMatch;
           startIndex := startIndex; endIndex := endIndex |} ]
  | CloseTag =>
      [ {| type := close; tag := Some (toLowerCase (slice fullMatch 2 1));
           attributes := None; content := None;
           startIndex := startIndex; endIndex := endIndex |} ]
  | OpenTag =>
      let isSelfClosing := ends_with fullMatch "/>" in
      match tagMatch fullMatch with
      | None => []
      | Some name =>
          [ {| type := if isSelfClosing then self_closing else open;
               tag := Some (toLowerCase name);
               attributes := Some (attributes_from fullMatch 0 []);
               content := None;
               startIndex := startIndex; endIndex := endIndex |} ]
      end
  | Text =>
      if 0 <? String.length (trim fullMatch) then
        let trimStart := many is_space fullMatch in
        [ {| type := text; tag := None; attributes := None;
             content := Some (trim fullMatch);
             startIndex := startIndex + trimStart; endIndex := endIndex |} ]
      else if 0 <? String.length fullMatch then
        [ {| type := text; tag := None; attributes := None;
             content := Some fullMatch;
             startIndex := startIndex; endIndex := endIndex |} ]
      else []
  end.

(** The loop [while ((match = tokenRegex.exec(xmlString)) !== null)] from the
    position [index]: with the [g] flag the search starts where the last
    match ended, moves on by one character where no alternative matches (the
    character is dropped), and stops at the end of the input. [skip] counts
    the characters of the last match still to pass. *)
Fixpoint tokenize_from (s : string) (index skip : nat) : list Token :=
  match s with
  | "" => []
  | String _ r =>
      match skip with
      | S k => tokenize_from r (S index) k
      | 0 =>
          match tokenRegex_at s with
          | Some (alt, len) =>
              push_token alt (take len s) index
                ++ tokenize_from r (S index) (len - 1)
          | None => tokenize_from r (S index) 0
          end
      end
  end.

Definition tokenize (xmlString : string) : list Token :=
  tokenize_from xmlString 0 0.

(** ** Parser *)

(** *** The presentation tables *)

(** A [React.ElementType] as the tables can give it: the name of an intrinsic
    element, or what a key that the table does not own reaches in
    [Object.prototype] (a function or the prototype itself). *)
Inductive ElementType :=
| Intrinsic (name : string)
| Inherited (key : string).

Definition ElementType_eqb (a b : ElementType) : bool :=
  match a, b with
  | Intrinsic x, Intrinsic y => (x =? y)%string
  | Inherited x, Inherited y => (x =? y)%string
  | _, _ => false
  end.

Definition TAG_MAP : Dict :=
  [ ("article", "div"); ("title", "h1"); ("para", "p");
    ("itemizedlist", "ul"); ("listitem", "li"); ("emphasis", "em");
    ("phrase", "span"); ("superscript", "sup"); ("subscript", "sub");
    ("strong", "strong"); ("sect1", "section"); ("sect2", "section");
    ("ulink", "a"); ("link", "a") ].

Definition PROPS_MAP : list (string * Dict) :=
  [ ("h1", [("className",
       "text-3xl font-bold mb-4 border-b border-gray-300 pb-2 text-gray-900")]);
    ("h2", [("className", "text-2xl font-bold mb-3 mt-6 text-gray-900")]);
    ("h3", [("className", "text-xl font-bold mb-2 mt-4 text-gray-900")]);
    ("section", [("className", "py-2")]);
    ("p", [("className", "mb-4")]);
    ("ul", [("className", "list-disc pl-8 mb-4")]);
    ("li", [("className", "mb-2")]);
    ("em", [("className", "italic text-indigo-600")]);
    ("strong", [("className", "font-bold text-teal-600")]);
    ("sup", [("className", "align-super text-sm")]);
    ("sub", [("className", "align-sub text-sm")]);
    ("a", [("className", "text-blue-600 underline hover:text-blue-800")]) ].

(** The properties every object literal inherits from [Object.prototype]. *)
Definition prototype_keys : list string :=
  [ "constructor"; "__proto__"; "hasOwnProperty"; "isPrototypeOf";
    "propertyIsEnumerable"; "toString"; "toLocaleString"; "valueOf";
    "__defineGetter__"; "__defineSetter__"; "__lookupGetter__";
    "__lookupSetter__" ].

Definition is_prototype_key (key : string) : bool :=
  existsb (String.eqb key) prototype_keys.

(** [TAG_MAP[tagName] || 'div']; an absent tag reads the key [undefined]. *)
Definition tag_component (tagName : option string) : ElementType :=
  match tagName with
  | None => Intrinsic "div"
  | Some t =>
      match lookup t TAG_MAP with
      | Some name => Intrinsic name
      | None => if is_prototype_key t then Inherited t else Intrinsic "div"
      end
  end.

Fixpoint props_of (key : string) (m : list (string * Dict)) : option Dict :=
  match m with
  | [] => None
  | (k, v) :: m' => if (k =? key)%string then Some v else props_of key m'
  end.

(** [{ ...(PROPS_MAP[key] || {}) }]; what an inherited key reaches has no
    enumerable property of its own. *)
Definition props_for (key : string) : Dict :=
  match props_of key PROPS_MAP with
  | Some o => o
  | None => []
  end.

Definition tag_props (tagName : option string) : Dict :=
  match tagName with
  | None => []
  | Some t => props_for t
  end.

(** [x === 'name'] for an optional string *)
Definition is_tag (x : option string) (name : string) : bool :=
  match x with
  | Some t => (t =? name)%string
  | None => false
  end.

Definition same_tag (x y : option string) : bool :=
  match x, y with
  | Some a, Some b => (a =? b)%string
  | None, None => true
  | _, _ => false
  end.

(** [token.attributes?.key] *)
Definition attribute (key : string) (attributes : option Dict)
  : option string :=
  match attributes with
  | Some o => lookup key o
  | None => None
  end.

(** [a || b] on optional strings: [undefined] and the empty string are
    falsy. *)
Definition truthy (x : option string) : bool :=
  match x with
  | Some s => negb (s =? "")%string
  | None => false
  end.

Definition or_else (a b : option string) : option string :=
  if truthy a then a else b.

(** The string of a value known to be one. *)
Definition string_of (x : option string) : string :=
  match x with
  | Some s => s
  | None => ""
  end.

(** The variant of a tag: lines 104 to 127 of the parser. *)
Definition resolve (tagName parentTagName : option string)
    (attributes : option Dict) : ElementType * Dict :=
  let component := tag_component tagName in
  let dynamicProps := tag_props tagName in
  if is_tag tagName "title" then
    if is_tag parentTagName "article" then (Intrinsic "h1", props_for "h1")
    else if is_tag parentTagName "sect1" then (Intrinsic "h2", props_for "h2")
    else if is_tag parentTagName "sect2" then (Intrinsic "h3", props_for "h3")
    else (Intrinsic "strong",
          [("className", "font-bold text-lg block text-gray-800")])
  else if is_tag tagName "emphasis" then
    let role := attribute "role" attributes in
    if is_tag role "bold" then
      (Intrinsic "strong", spread dynamicProps (props_for "strong"))
    else if is_tag role "underline" then
      (Intrinsic "span",
       assign "className"
         (trim (string_of (or_else (lookup "className" dynamicProps) (Some ""))
                ++ " underline decoration-yellow-500 text-yellow-700"))
         dynamicProps)
    else (component, dynamicProps)
  else if ElementType_eqb component (Intrinsic "a") then
    let url := or_else (attribute "url" attributes)
                       (attribute "xlink:href" attributes) in
    if truthy url then
      (component,
       assign "rel" "noopener noreferrer"
         (assign "target" "_blank"
            (assign "href" (string_of url) dynamicProps)))
    else (component, dynamicProps)
  else (component, dynamicProps).

(** *** The tree *)

Record ParsedTextNode := {
  text_id : string;
  text_content : string;
  text_startIndex : nat;
  text_endIndex : nat
}.

Inductive ParsedNode :=
| Build_ParsedNode (id : string) (component : ElementType) (props : Dict)
    (children : list ParsedChild)
    (startIndex endIndex contentStartIndex contentEndIndex : nat)
with ParsedChild :=
| Element (node : ParsedNode)
| TextRun (run : ParsedTextNode).

Definition node_id (n : ParsedNode) : string :=
  let 'Build_ParsedNode id _ _ _ _ _ _ _ := n in id.
Definition node_component (n : ParsedNode) : ElementType :=
  let 'Build_ParsedNode _ c _ _ _ _ _ _ := n in c.
Definition node_props (n : ParsedNode) : Dict :=
  let 'Build_ParsedNode _ _ p _ _ _ _ _ := n in p.
Definition node_children (n : ParsedNode) : list ParsedChild :=
  let 'Build_ParsedNode _ _ _ ch _ _ _ _ := n in ch.
Definition node_startIndex (n : ParsedNode) : nat :=
  let 'Build_ParsedNode _ _ _ _ s _ _ _ := n in s.
Definition node_endIndex (n : ParsedNode) : nat :=
  let 'Build_ParsedNode _ _ _ _ _ e _ _ := n in e.
Definition node_contentStartIndex (n : ParsedNode) : nat :=
  let 'Build_ParsedNode _ _ _ _ _ _ cs _ := n in cs.
Definition node_contentEndIndex (n : ParsedNode) : nat :=
  let 'Build_ParsedNode _ _ _ _ _ _ _ ce := n in ce.

Definition child_id (c : ParsedChild) : string :=
  match c with
  | Element n => node_id n
  | TextRun t => text_id t
  end.

Definition child_startIndex (c : ParsedChild) : nat :=
  match c with
  | Element n => node_startIndex n
  | TextRun t => text_startIndex t
  end.

Definition child_endIndex (c : ParsedChild) : nat :=
  match c with
  | Element n => node_endIndex n
  | TextRun t => text_endIndex t
  end.

(** *** Ids *)

(** [n.toString()] *)
Definition toString (n : nat) : string :=
  NilEmpty.string_of_uint (Nat.to_uint n).

(** [(nodeIdCounter++).toString()] and [`text-${nodeIdCounter++}`] *)
Definition element_id (n : nat) : string := toString n.
Definition run_id (n : nat) : string := ("text-" ++ toString n)%string.

(** *** The recursive descent

    [nodeIdCounter] is a module-level variable: it is threaded through as
    state. The recursion of [parse] through its [while] loop is not
    structural, so both carry a step budget; [parse_fuel] is a budget that
    never runs out. *)

Inductive Run (A : Type) :=
| OutOfFuel
| Done (result : A) (nodeIdCounter : nat).
Arguments OutOfFuel {A}.
Arguments Done {A} result nodeIdCounter.

Record ParseResult := { node : ParsedNode; nextIndex : nat }.

(** The variables that the [while] loop of [parse] updates. *)
Record Loop := {
  children : list ParsedChild;
  contentEndIndex : nat;
  finalEndIndex : nat;
  loop_nextIndex : nat
}.

Definition is_element_start (token : Token) : bool :=
  TokenType_eqb (type token) open || TokenType_eqb (type token) self_closing.

(** [nextToken.type === 'close' && nextToken.tag === tagName] *)
Definition closes (nextToken : Token) (tagName : option string) : bool :=
  TokenType_eqb (type nextToken) close && same_tag (tag nextToken) tagName.

(** The variables before the loop, lines 129 to 133. *)
Definition loop_start (token : Token) (index : nat) : Loop :=
  {| children := [];
     contentEndIndex := endIndex token;
     finalEndIndex := endIndex token;
     loop_nextIndex := index + 1 |}.

(** The matching close token: lines 139 to 141. *)
Definition close_at (nextToken : Token) (l : Loop) : Loop :=
  {| children := children l;
     contentEndIndex := startIndex nextToken;
     finalEndIndex := endIndex nextToken;
     loop_nextIndex := loop_nextIndex l + 1 |}.

(** [nextIndex++] *)
Definition advance (l : Loop) : Loop :=
  {| children := children l;
     contentEndIndex := contentEndIndex l;
     finalEndIndex := finalEndIndex l;
     loop_nextIndex := loop_nextIndex l + 1 |}.

(** [children.push(child)] and the new [nextIndex] *)
Definition push (child : ParsedChild) (next : nat) (l : Loop) : Loop :=
  {| children := children l ++ [child];
     contentEndIndex := contentEndIndex l;
     finalEndIndex := finalEndIndex l;
     loop_nextIndex := next |}.

(** The text child of lines 147 to 153. *)
Definition text_child (nextToken : Token) (nodeIdCounter : nat) : ParsedChild :=
  TextRun {| text_id := run_id nodeIdCounter;
             text_content := string_of (content nextToken);
             text_startIndex := startIndex nextToken;
             text_endIndex := endIndex nextToken |}.

(** The returned object, lines 170 to 184; [counter] is [nodeIdCounter]
    before its increment. *)
Definition finish (token : Token) (parentTagName : option string) (l : Loop)
    (counter : nat) : ParseResult :=
  let '(component, dynamicProps) :=
    resolve (tag token) parentTagName (attributes token) in
  let nodeId := element_id counter in
  {| node :=
       Build_ParsedNode nodeId component (assign "data-id" nodeId dynamicProps)
         (children l) (startIndex token) (finalEndIndex l)
         (endIndex token) (contentEndIndex l);
     nextIndex := loop_nextIndex l |}.

Fixpoint parse (fuel : nat) (tokens : list Token) (index : nat)
    (parentTagName : option string) (nodeIdCounter : nat)
  : Run (option ParseResult) :=
  match fuel with
  | 0 => OutOfFuel
  | S fuel' =>
      match nth_error tokens index with
      | None => Done None nodeIdCounter
      | Some token =>
          if negb (is_element_start token) then Done None nodeIdCounter
          else
            let after :=
              if TokenType_eqb (type token) open
              then consume fuel' tokens (tag token) (loop_start token index)
                     nodeIdCounter
              else Done (loop_start token index) nodeIdCounter in
            match after with
            | OutOfFuel => OutOfFuel
            | Done l counter =>
                Done (Some (finish token parentTagName l counter)) (S counter)
            end
      end
  end

with consume (fuel : nat) (tokens : list Token) (tagName : option string)
    (l : Loop) (nodeIdCounter : nat) : Run Loop :=
  match fuel with
  | 0 => OutOfFuel
  | S fuel' =>
      let next := loop_nextIndex l in
      if next <? List.length tokens then
        match nth_error tokens next with
        | None => Done l nodeIdCounter
        | Some nextToken =>
            if closes nextToken tagName then
              Done (close_at nextToken l) nodeIdCounter
            else if TokenType_eqb (type nextToken) text then
              if truthy (content nextToken) then
                consume fuel' tokens tagName
                  (push (text_child nextToken nodeIdCounter) (next + 1) l)
                  (S nodeIdCounter)
              else consume fuel' tokens tagName (advance l) nodeIdCounter
            else if is_element_start nextToken then
              match parse fuel' tokens next tagName nodeIdCounter with
              | OutOfFuel => OutOfFuel
              | Done (Some result) counter =>
                  consume fuel' tokens tagName
                    (push (Element (node result)) (nextIndex result) l)
                    counter
              | Done None counter =>
                  consume fuel' tokens tagName (advance l) counter
              end
            else consume fuel' tokens tagName (advance l) nodeIdCounter
        end
      else Done l nodeIdCounter
  end.

(** A budget for [parse] at [index]: every call and every turn of a loop
    moves on in the tokens. *)
Definition parse_fuel (tokens : list Token) (index : nat) : nat :=
  2 * (List.length tokens - index) + 1.

(** [tokens.findIndex(p)], with [None] for [-1] *)
Fixpoint findIndex (p : Token -> bool) (tokens : list Token) : option nat :=
  match tokens with
  | [] => None
  | t :: r => if p t then Some 0 else option_map S (findIndex p r)
  end.

Section ParseDocBook.

(** The browser's [DOMParser] is outside the repository: [wellFormed xml]
    stands for [parseFromString] giving a document without a
    [parsererror] element. *)
Variable wellFormed : string -> bool.

Definition parseDocBook (xmlString : string) : option ParsedNode :=
  if negb (wellFormed xmlString) then None
  else
    let tokens := tokenize xmlString in
    if List.length tokens =? 0 then None
    else
      match findIndex (fun t => TokenType_eqb (type t) open) tokens with
      | None => None
      | Some firstTagIndex =>
          match parse (parse_fuel tokens firstTagIndex) tokens firstTagIndex
                  None 0 with
          | Done (Some result) _ => Some (node result)
          | _ => None
          end
      end.

End ParseDocBook.

(** *** The descent as a relation

    [Parses tokens index parent c result c'] holds when [parse] at [index]
    with the counter at [c] returns [result] and leaves the counter at [c'].
    [Consumes tokens tagName l c heads l' c'] holds when the loop started in
    state [l] ends in state [l']; [heads] lists, in order, the indices of the
    tokens that this loop itself examined (the tokens taken by a nested
    [parse] are not among them). *)

Inductive Parses (tokens : list Token)
  : nat -> option string -> nat -> option ParseResult -> nat -> Prop :=
| Parses_missing index parent c :
    nth_error tokens index = None ->
    Parses tokens index parent c None c
| Parses_other index parent c token :
    nth_error tokens index = Some token ->
    is_element_start token = false ->
    Parses tokens index parent c None c
| Parses_self_closing index parent c token :
    nth_error tokens index = Some token ->
    is_element_start token = true ->
    TokenType_eqb (type token) open = false ->
    Parses tokens index parent c
      (Some (finish token parent (loop_start token index) c)) (S c)
| Parses_open index parent c token heads l c' :
    nth_error tokens index = Some token ->
    TokenType_eqb (type token) open = true ->
    Consumes tokens (tag token) (loop_start token index) c heads l c' ->
    Parses tokens index parent c (Some (finish token parent l c')) (S c')

with Consumes (tokens : list Token)
  : option string -> Loop -> nat -> list nat -> Loop -> nat -> Prop :=
| Consumes_end tagName l c :
    List.length tokens <= loop_nextIndex l ->
    Consumes tokens tagName l c [] l c
| Consumes_close tagName l c nextToken :
    nth_error tokens (loop_nextIndex l) = Some nextToken ->
    closes nextToken tagName = true ->
    Consumes tokens tagName l c [loop_nextIndex l] (close_at nextToken l) c
| Consumes_text tagName l c nextToken heads l' c' :
    nth_error tokens (loop_nextIndex l) = Some nextToken ->
    closes nextToken tagName = false ->
    TokenType_eqb (type nextToken) text = true ->
    truthy (content nextToken) = true ->
    Consumes tokens tagName
      (push (text_child nextToken c) (loop_nextIndex l + 1) l) (S c)
      heads l' c' ->
    Consumes tokens tagName l c (loop_nextIndex l :: heads) l' c'
| Consumes_skip tagName l c nextToken heads l' c' :
    nth_error tokens (loop_nextIndex l) = Some nextToken ->
    closes nextToken tagName = false ->
    (if TokenType_eqb (type nextToken) text
     then negb (truthy (content nextToken))
     else negb (is_element_start nextToken)) = true ->
    Consumes tokens tagName (advance l) c heads l' c' ->
    Consumes tokens tagName l c (loop_nextIndex l :: heads) l' c'
| Consumes_child tagName l c nextToken result c1 heads l' c' :
    nth_error tokens (loop_nextIndex l) = Some nextToken ->
    closes nextToken tagName = false ->
    TokenType_eqb (type nextToken) text = false ->
    is_element_start nextToken = true ->
    Parses tokens (loop_nextIndex l) tagName c (Some result) c1 ->
    Consumes tokens tagName
      (push (Element (node result)) (nextIndex result) l) c1 heads l' c' ->
    Consumes tokens tagName l c (loop_nextIndex l :: heads) l' c'
| Consumes_null tagName l c nextToken c1 heads l' c' :
    nth_error tokens (loop_nextIndex l) = Some nextToken ->
    closes nextToken tagName = false ->
    TokenType_eqb (type nextToken) text = false ->
    is_element_start nextToken = true ->
    Parses tokens (loop_nextIndex l) tagName c None c1 ->
    Consumes tokens tagName (advance l) c1 heads l' c' ->
    Consumes tokens tagName l c (loop_nextIndex l :: heads) l' c'.

Scheme Parses_mut := Minimality for Parses Sort Prop
  with Consumes_mut := Minimality for Consumes Sort Prop.
Combined Scheme Parses_Consumes_ind from Parses_mut, Consumes_mut.

(** *** Walking the tree *)

(** Every Node of a tree, the root first. *)
Fixpoint subnodes (n : ParsedNode) : list ParsedNode :=
  match n with
  | Build_ParsedNode _ _ _ ch _ _ _ _ =>
      n :: flat_map (fun c => match c with
                              | Element m => subnodes m
                              | TextRun _ => []
                              end) ch
  end.

Definition child_subnodes (c : ParsedChild) : list ParsedNode :=
  match c with
  | Element m => subnodes m
  | TextRun _ => []
  end.

(** The ids of all Nodes and TextRuns, a Node after its descendants. *)
Fixpoint ids_postorder (n : ParsedNode) : list string :=
  match n with
  | Build_ParsedNode id _ _ ch _ _ _ _ =>
      flat_map (fun c => match c with
                         | Element m => ids_postorder m
                         | TextRun t => [text_id t]
                         end) ch ++ [id]
  end.

Definition child_ids_postorder (c : ParsedChild) : list string :=
  match c with
  | Element m => ids_postorder m
  | TextRun t => [text_id t]
  end.

(** The ids of all Nodes and TextRuns in document order, a Node before its
    descendants. *)
Fixpoint ids_preorder (n : ParsedNode) : list string :=
  match n with
  | Build_ParsedNode id _ _ ch _ _ _ _ =>
      id :: flat_map (fun c => match c with
                               | Element m => ids_preorder m
                               | TextRun t => [text_id t]
                               end) ch
  end.

(** [id] is the id that the counter value [k] gives, to a Node or to a
    TextRun. *)
Definition id_of (k : nat) (id : string) : Prop :=
  id = element_id k \/ id = run_id k.

(** ** The preview: word highlighting and in-place edits *)

(** [/\s|[.,;?!]/.test(content[i])]; [test(undefined)] tests the string
    [undefined], which has no such character. *)
Definition is_boundary (c : ascii) : bool :=
  is_space c || (c =? ".")%char || (c =? ",")%char || (c =? ";")%char
  || (c =? "?")%char || (c =? "!")%char.

Definition boundary_test (x : option ascii) : bool :=
  match x with
  | Some c => is_boundary c
  | None => false
  end.

(** The first loop of lines 60 to 63, from [wordStart]. *)
Fixpoint wordStart_loop (content : string) (wordStart : nat) : nat :=
  match wordStart with
  | 0 => 0
  | S w =>
      if negb (boundary_test (char_at content w))
      then wordStart_loop content w
      else wordStart
  end.

(** The second loop of lines 65 to 68, from [wordEnd]; it makes at most
    [content.length] turns, which [turns] counts down.
    [wordEnd < content.length - 1] is [wordEnd + 1 < content.length]. *)
Fixpoint wordEnd_loop (turns : nat) (content : string) (wordEnd : nat) : nat :=
  match turns with
  | 0 => wordEnd
  | S turns' =>
      if (wordEnd + 1 <? String.length content)
         && negb (boundary_test (char_at content (wordEnd + 1)))
      then wordEnd_loop turns' content (wordEnd + 1)
      else wordEnd
  end.

Definition wordStart (content : string) (relativePos : nat) : nat :=
  wordStart_loop content relativePos.

Definition wordEnd (content : string) (relativePos : nat) : nat :=
  wordEnd_loop (String.length content) content relativePos.

Inductive SyncSource := editor | preview.

(** [syncSource === 'editor' && syncPos !== null
     && syncPos >= node.startIndex && syncPos < node.endIndex] *)
Definition isHighlighted (node : ParsedTextNode) (syncPos : option nat)
    (syncSource : option SyncSource) : bool :=
  match syncSource, syncPos with
  | Some editor, Some pos =>
      (text_startIndex node <=? pos) && (pos <? text_endIndex node)
  | _, _ => false
  end.

(** What [RenderedTextNode] puts in its span. *)
Inductive Rendered :=
| Plain (content : string)
| Highlighted (before word after : string).

Definition RenderedTextNode (node : ParsedTextNode) (syncPos : option nat)
    (syncSource : option SyncSource) : Rendered :=
  match syncPos with
  | Some pos =>
      if isHighlighted node syncPos syncSource then
        let relativePos := pos - text_startIndex node in
        let wordStart := wordStart (text_content node) relativePos in
        let wordEnd := wordEnd (text_content node) relativePos in
        Highlighted
          (substring (text_content node) 0 wordStart)
          (substring (text_content node) wordStart (wordEnd + 1))
          (drop (wordEnd + 1) (text_content node))
      else Plain (text_content node)
  | None => Plain (text_content node)
  end.

(** [s.replace(/c/g, by)] for a one-character pattern *)
Fixpoint replace_all (c : ascii) (by_ : string) (s : string) : string :=
  match s with
  | "" => ""
  | String x r =>
      if (x =? c)%char then (by_ ++ replace_all c by_ r)%string
      else String x (replace_all c by_ r)
  end.

Definition escapedText (newContent : string) : string :=
  replace_all ">" "&gt;"
    (replace_all "<" "&lt;" (replace_all "&" "&amp;" newContent)).

Record EditingState := { nodeId : string; cursor : nat }.

(** [handleTextChange]: the text handed to [onCodeChange] and the state
    given to [setEditingState]. *)
Definition handleTextChange (code : string) (node : ParsedTextNode)
    (newContent : string) (cursorPosition : nat) : string * EditingState :=
  let newCode :=
    (substring code 0 (text_startIndex node)
     ++ escapedText newContent
     ++ drop (text_endIndex node) code)%string in
  (newCode, {| nodeId := text_id node; cursor := cursorPosition |}).

(** ** The specification's words, to compare the code with *)

(** The escaping of section 4.5, character by character. *)
Definition escape_char (c : ascii) : string :=
  if (c =? "&")%char then "&amp;"
  else if (c =? "<")%char then "&lt;"
  else if (c =? ">")%char then "&gt;"
  else String c "".

Fixpoint escape (s : string) : string :=
  match s with
  | "" => ""
  | String c r => (escape_char c ++ escape r)%string
  end.

(** The boundary characters that section 4.3 lists: space, tab, newline,
    period, comma, semicolon, question mark, exclamation mark. *)
Definition listed_boundary (c : ascii) : bool :=
  (c =? " ")%char || (char_code c =? 9) || (char_code c =? 10)
  || (c =? ".")%char || (c =? ",")%char || (c =? ";")%char
  || (c =? "?")%char || (c =? "!")%char.

(** ** Predicates of the statements *)

(** The tokens follow each other in the input: each starts at or after
    [lo] and at or after the end of the token before it. *)
Fixpoint ordered_from (lo : nat) (tokens : list Token) : Prop :=
  match tokens with
  | [] => True
  | t :: r =>
      lo <= startIndex t /\ startIndex t <= endIndex t
      /\ ordered_from (endIndex t) r
  end.

(** The text token that the tokenizer makes of the run [run] found at offset
    [p]: section 4.1. *)
Definition text_token_of (run : string) (p : nat) (t : Token) : Prop :=
  type t = text
  /\ endIndex t = p + String.length run
  /\ if all_chars is_space run
     then startIndex t = p /\ content t = Some run
     else startIndex t = p + many is_space run
          /\ content t = Some (trim run).

(** The characters from offset [p] to offset [e] of an input whose first
    character has offset [index]. *)
Definition run_between (s : string) (index p e : nat) : string :=
  take (e - p) (drop (p - index) s).

(** A run of characters other than [<] that ends at the end of the input or
    before a [<]. *)
Definition text_run (run rest : string) : Prop :=
  run <> "" /\ all_chars not_lt run = true
  /\ (rest = "" \/ head_is "<" rest = true).

(** The earlier sibling ends where the later one starts, or before. *)
Definition before (a b : ParsedChild) : Prop :=
  child_endIndex a <= child_startIndex b.

(** The spans of the children of one Node: in document order without
    overlap, none before the content start and, where a close token ended the
    Node (its end is then past its content end), none past the content end. *)
Definition node_spans_ok (n : ParsedNode) : Prop :=
  StronglySorted before (node_children n)
  /\ (forall c, In c (node_children n) ->
                node_contentStartIndex n <= child_startIndex c
                /\ child_startIndex c <= child_endIndex c)
  /\ (node_contentEndIndex n < node_endIndex n ->
      forall c, In c (node_children n) ->
                child_endIndex c <= node_contentEndIndex n).

(** Section 3: every child's span lies within the content span of its
    parent. *)
Definition children_within_content (n : ParsedNode) : Prop :=
  forall c, In c (node_children n) ->
            node_contentStartIndex n <= child_startIndex c
            /\ child_endIndex c <= node_contentEndIndex n.

(** What the loop keeps true of the children gathered so far, for an element
    whose content starts at [contentStart]. *)
Definition loop_spans_ok (tokens : list Token) (contentStart : nat)
    (l : Loop) : Prop :=
  StronglySorted before (children l)
  /\ (forall c, In c (children l) ->
                contentStart <= child_startIndex c
                /\ child_startIndex c <= child_endIndex c)
  /\ (forall c j tj, In c (children l) -> loop_nextIndex l <= j ->
                     nth_error tokens j = Some tj ->
                     child_endIndex c <= startIndex tj)
  /\ (forall j tj, loop_nextIndex l <= j -> nth_error tokens j = Some tj ->
                   contentStart <= startIndex tj)
  /\ Forall node_spans_ok (flat_map child_subnodes (children l)).

(** How a loop over [heads] from state [l] ended in [l']: at the first token
    among those it examined that closes [tagName], or at the end of the
    tokens without one. *)
Definition closed_at_first_reached (tokens : list Token)
    (tagName : option string) (heads : list nat) (l' : Loop) : Prop :=
  exists pre k nextToken,
    heads = pre ++ [k]
    /\ nth_error tokens k = Some nextToken
    /\ closes nextToken tagName = true
    /\ (forall j tj, In j pre -> nth_error tokens j = Some tj ->
                     closes tj tagName = false)
    /\ contentEndIndex l' = startIndex nextToken
    /\ finalEndIndex l' = endIndex nextToken
    /\ loop_nextIndex l' = k + 1.

Definition never_closed (tokens : list Token) (tagName : option string)
    (heads : list nat) (l l' : Loop) : Prop :=
  (forall j tj, In j heads -> nth_error tokens j = Some tj ->
                closes tj tagName = false)
  /\ contentEndIndex l' = contentEndIndex l
  /\ finalEndIndex l' = finalEndIndex l
  /\ loop_nextIndex l' = List.length tokens.


(** The first index from [from] on, among the first [n], whose token closes
    [tagName]: matching by name alone along the token stream. *)
Fixpoint first_close (tokens : list Token) (tagName : option string)
    (from n : nat) : option nat :=
  match n with
  | 0 => None
  | S n' =>
      match nth_error tokens from with
      | Some t =>
          if closes t tagName then Some from
          else first_close tokens tagName (S from) n'
      | None => None
      end
  end.

(** Section 9: an element ends at the first close token of its name that
    follows its open token, whatever the nesting between them. *)
Definition closed_at_first_close_of_name (tokens : list Token) (index : nat)
    (tagName : option string) (r : ParseResult) : Prop :=
  match first_close tokens tagName (index + 1) (List.length tokens) with
  | Some k =>
      option_map endIndex (nth_error tokens k)
      = Some (node_endIndex (node r))
      /\ option_map startIndex (nth_error tokens k)
         = Some (node_contentEndIndex (node r))
  | None => True
  end.

(** Section 4.2: the ids follow the counter in document order. *)
Definition ids_in_document_order (tree : ParsedNode) : Prop :=
  exists ks, Forall2 id_of ks (ids_preorder tree) /\ StronglySorted lt ks.

(** Section 4.3: the word span of the offset [relativePos] stops, on the
    right, at the edge of the run or before one of the listed boundary
    characters, and likewise on the left. *)
Definition stops_at_listed_boundary (content : string) (relativePos : nat)
  : Prop :=
  let s := wordStart content relativePos in
  let e := wordEnd content relativePos + 1 in
  (s = 0 \/ exists ch, char_at content (s - 1) = Some ch
                       /\ listed_boundary ch = true)
  /\ (String.length content <= e
      \/ exists ch, char_at content e = Some ch /\ listed_boundary ch = true).

(** ** Inputs used below *)

Definition quoted (s : string) : string :=
  (String dquote s ++ String dquote "")%string.

(** The sample of section 8. *)
Definition sample : string :=
  ("<article><title>Welcome</title><para>Hi <emphasis role=" ++ quoted "bold"
   ++ ">there</emphasis></para></article>")%string.

Definition ulink_sample : string :=
  ("<ulink url=" ++ quoted "https://x.test/" ++ ">x</ulink>")%string.

(** Well-formed XML whose character data holds a tag. *)
Definition cdata_sample : string := "<r><![CDATA[<a>]]></r>".

Definition nested_sample : string := "<a><a>x</a>y</a>".

(** ** The rest of the code, for the properties beyond the claims *)

(** *** Predicates on tokens *)

Definition is_upper (c : ascii) : bool := in_range 65 90 c.

(** A case-folded tag name: not empty, of the characters [[a-z0-9_:]]. *)
Definition folded_name (name : string) : Prop :=
  name <> ""
  /\ all_chars (fun c => is_name_char c && negb (is_upper c)) name = true.

(** * Properties *)

(** ** Strings *)

Lemma length_take n s : String.length (take n s) = Nat.min n (String.length s).
Proof.
  revert s; induction n as [|n IH]; intros [|c r]; simpl; auto.
Qed.

Lemma length_drop n s : String.length (drop n s) = String.length s - n.
Proof.
  revert s; induction n as [|n IH]; intros [|c r]; simpl; auto.
Qed.

Lemma take_drop n s : (take n s ++ drop n s)%string = s.
Proof.
  revert s; induction n as [|n IH]; intros [|c r]; simpl; auto.
  now rewrite IH.
Qed.

Lemma take_all n s : String.length s <= n -> take n s = s.
Proof.
  revert s; induction n as [|n IH]; intros [|c r]; simpl; intros H;
    try reflexivity; try lia.
  rewrite IH; [reflexivity | lia].
Qed.

Lemma drop_all n s : String.length s <= n -> drop n s = "".
Proof.
  revert s; induction n as [|n IH]; intros [|c r]; simpl; intros H;
    try reflexivity; try lia.
  apply IH; lia.
Qed.

Lemma take_app_length s t : take (String.length s) (s ++ t) = s.
Proof. induction s as [|c r IH]; simpl; [now destruct t | now rewrite IH]. Qed.

Lemma drop_app_length s t : drop (String.length s) (s ++ t) = t.
Proof. induction s as [|c r IH]; simpl; auto. Qed.

Lemma drop_drop n m s : drop n (drop m s) = drop (m + n) s.
Proof.
  revert s; induction m as [|m IH]; intros s; simpl; auto.
  destruct s as [|c r]; simpl; auto.
  now destruct n.
Qed.

Lemma length_app s t :
  String.length (s ++ t) = String.length s + String.length t.
Proof. induction s as [|c r IH]; simpl; auto. Qed.

Lemma char_at_drop n i s : char_at (drop n s) i = char_at s (n + i).
Proof.
  unfold char_at.
  revert s; induction n as [|n IH]; intros s; simpl; auto.
  destruct s as [|c r]; simpl; auto.
Qed.

Lemma char_at_take n i s : i < n -> char_at (take n s) i = char_at s i.
Proof.
  unfold char_at.
  revert i s; induction n as [|n IH]; intros i s H; [lia|].
  destruct s as [|c r]; simpl; auto.
  destruct i; simpl; auto.
  apply IH; lia.
Qed.

Lemma char_at_app_l s t i :
  i < String.length s -> char_at (s ++ t) i = char_at s i.
Proof.
  unfold char_at.
  revert i; induction s as [|c r IH]; intros i H; simpl in *; [lia|].
  destruct i; auto.
  apply IH; lia.
Qed.

Lemma char_at_app_r s t i :
  char_at (s ++ t) (String.length s + i) = char_at t i.
Proof.
  unfold char_at.
  induction s as [|c r IH]; simpl; auto.
Qed.

Lemma char_at_none s i : String.length s <= i -> char_at s i = None.
Proof.
  unfold char_at.
  revert i; induction s as [|c r IH]; intros i H; simpl in *.
  - now destruct i.
  - destruct i; [lia|]. apply IH; lia.
Qed.


Lemma many_le p s : many p s <= String.length s.
Proof.
  induction s as [|c r IH]; simpl; auto.
  destruct (p c); lia.
Qed.

Lemma many_all p s : all_chars p (take (many p s) s) = true.
Proof.
  induction s as [|c r IH]; simpl; auto.
  destruct (p c) eqn:E; simpl; auto.
  now rewrite E.
Qed.

Lemma many_stop p s c :
  char_at s (many p s) = Some c -> p c = false.
Proof.
  unfold char_at.
  induction s as [|x r IH]; simpl; [discriminate|].
  destruct (p x) eqn:E; simpl; auto.
  now intros [= <-].
Qed.

Lemma many_app_stop p s t :
  all_chars p s = true ->
  (t = "" \/ exists c r, t = String c r /\ p c = false) ->
  many p (s ++ t) = String.length s.
Proof.
  intros Hs Ht.
  induction s as [|x r IH]; simpl in *.
  - destruct Ht as [-> | (c & r & -> & Hc)]; simpl; auto.
    now rewrite Hc.
  - apply andb_true_iff in Hs as [Hx Hr].
    rewrite Hx. now rewrite IH.
Qed.

Lemma all_chars_many p s : all_chars p s = true -> many p s = String.length s.
Proof.
  induction s as [|c r IH]; simpl; auto.
  intros [Hc Hr]%andb_true_iff. rewrite Hc. now rewrite IH.
Qed.

Lemma many_length_all p s : many p s = String.length s -> all_chars p s = true.
Proof.
  induction s as [|c r IH]; simpl; auto.
  destruct (p c); simpl; [|discriminate].
  intros [= H]. auto.
Qed.

Lemma trim_end_length s : String.length (trim_end s) <= String.length s.
Proof.
  induction s as [|c r IH]; simpl; auto.
  destruct (trim_end r) eqn:E; simpl in *.
  - destruct (is_space c); simpl; lia.
  - lia.
Qed.

Lemma trim_end_empty s : trim_end s = "" <-> all_chars is_space s = true.
Proof.
  induction s as [|c r IH]; simpl; [tauto|].
  destruct (trim_end r) eqn:E.
  - destruct (is_space c); simpl; split; try discriminate; try tauto.
  - split; [discriminate|].
    intros [_ H]%andb_true_iff. apply IH in H. discriminate.
Qed.

Lemma all_chars_drop_many p s :
  all_chars p (drop (many p s) s) = all_chars p s.
Proof.
  induction s as [|c r IH]; simpl; auto.
  destruct (p c) eqn:E; simpl; auto.
  now rewrite E.
Qed.

Lemma trim_empty s : trim s = "" <-> all_chars is_space s = true.
Proof.
  unfold trim. rewrite trim_end_empty. now rewrite all_chars_drop_many.
Qed.

Lemma trim_length s :
  String.length (trim s) <= String.length s - many is_space s.
Proof.
  unfold trim.
  etransitivity; [apply trim_end_length|].
  now rewrite length_drop.
Qed.

Lemma length_zero s : String.length s = 0 <-> s = "".
Proof. destruct s; simpl; split; congruence. Qed.

(** ** Tokenizer *)

Lemma not_lt_neq c : not_lt c = true -> (c =? "<")%char = false.
Proof. unfold not_lt. now destruct (c =? "<")%char. Qed.

Lemma prefix_head c p s r :
  (c =? p)%char = false -> prefix (String p s) (String c r) = false.
Proof.
  intros H. simpl. destruct (ascii_dec p c) as [->|]; auto.
  rewrite Ascii.eqb_refl in H. discriminate.
Qed.

(** Where the input does not start with [<], only the text alternative
    matches, and it takes the whole run up to the next [<]. *)
Lemma tokenRegex_at_text c r :
  not_lt c = true ->
  tokenRegex_at (String c r) = Some (Text, many not_lt (String c r)).
Proof.
  intros H. pose proof (not_lt_neq _ H) as Hc.
  unfold tokenRegex_at, match_comment, match_closeTag, match_openTag,
    match_text.
  rewrite (prefix_head _ _ _ _ Hc).
  rewrite Hc. cbn [many]. rewrite H. destruct r; reflexivity.
Qed.

Lemma tokenRegex_at_Text s len :
  tokenRegex_at s = Some (Text, len) ->
  len = many not_lt s /\ 0 < len.
Proof.
  unfold tokenRegex_at.
  destruct (match_comment s); [discriminate|].
  destruct (match_closeTag s); [discriminate|].
  destruct (match_openTag s); [discriminate|].
  unfold match_text.
  destruct (many not_lt s =? 0) eqn:E; [discriminate|].
  apply Nat.eqb_neq in E. intros [= <-]. lia.
Qed.

(** The characters of a match are passed without another attempt. *)
Lemma tokenize_from_skip s index k :
  k <= String.length s ->
  tokenize_from s index k = tokenize_from (drop k s) (index + k) 0.
Proof.
  revert index k; induction s as [|c r IH]; intros index k H.
  - simpl in H. assert (k = 0) as -> by lia. reflexivity.
  - destruct k as [|k].
    + now rewrite Nat.add_0_r.
    + simpl in H. cbn [tokenize_from drop].
      rewrite IH by lia. f_equal. lia.
Qed.

Lemma ordered_from_le lo lo' tokens :
  lo <= lo' -> ordered_from lo' tokens -> ordered_from lo tokens.
Proof. destruct tokens; simpl; auto. intros H (? & ? & ?). repeat split; auto; lia. Qed.

Lemma push_token_span alt fullMatch index t :
  In t (push_token alt fullMatch index) ->
  index <= startIndex t /\ startIndex t <= endIndex t
  /\ endIndex t = index + String.length fullMatch.
Proof.
  unfold push_token. destruct alt.
  - intros [<-|[]]; simpl; lia.
  - intros [<-|[]]; simpl; lia.
  - destruct (tagMatch fullMatch); [|intros []].
    intros [<-|[]]; simpl; lia.
  - destruct (0 <? String.length (trim fullMatch)).
    + intros [<-|[]]; simpl.
      pose proof (many_le is_space fullMatch). lia.
    + destruct (0 <? String.length fullMatch); [|intros []].
      intros [<-|[]]; simpl; lia.
Qed.

Lemma push_token_at_most_one alt fullMatch index :
  push_token alt fullMatch index = []
  \/ exists t, push_token alt fullMatch index = [t].
Proof.
  unfold push_token. destruct alt; eauto.
  - destruct (tagMatch fullMatch); eauto.
  - destruct (0 <? String.length (trim fullMatch)); eauto.
    destruct (0 <? String.length fullMatch); eauto.
Qed.

Lemma tokenize_from_ordered s index skip :
  ordered_from (index + skip) (tokenize_from s index skip).
Proof.
  revert index skip; induction s as [|c r IH]; intros index skip; simpl; auto.
  destruct skip as [|k].
  - destruct (tokenRegex_at (String c r)) as [[alt len]|].
    + specialize (IH (S index) (len - 1)).
      destruct (push_token_at_most_one alt (take len (String c r)) index)
        as [-> | [t Ht]].
      * simpl. eapply ordered_from_le; [|exact IH]. lia.
      * pose proof (push_token_span alt (take len (String c r)) index t) as Hs.
        rewrite Ht in *. specialize (Hs (or_introl eq_refl)).
        destruct Hs as (H1 & H2 & H3).
        simpl. repeat split; try lia.
        eapply ordered_from_le; [|exact IH].
        rewrite H3, length_take. lia.
    + eapply ordered_from_le; [|apply IH]. lia.
  - eapply ordered_from_le; [|apply IH]. lia.
Qed.

Lemma tokenize_ordered xmlString : ordered_from 0 (tokenize xmlString).
Proof. apply (tokenize_from_ordered xmlString 0 0). Qed.

Lemma push_token_text run index :
  run <> "" ->
  push_token Text run index =
  [ {| type := text; tag := None; attributes := None;
       content := Some (if all_chars is_space run then run else trim run);
       startIndex :=
         index + (if all_chars is_space run then 0 else many is_space run);
       endIndex := index + String.length run |} ].
Proof.
  intros Hne. unfold push_token.
  destruct (all_chars is_space run) eqn:E.
  - apply trim_empty in E. rewrite E. simpl.
    destruct run; [congruence|]. simpl. now rewrite Nat.add_0_r.
  - destruct (trim run) eqn:T.
    + apply trim_empty in T. congruence.
    + reflexivity.
Qed.

Lemma push_token_type alt fullMatch index t :
  In t (push_token alt fullMatch index) -> type t = text -> alt = Text.
Proof.
  unfold push_token. destruct alt; auto.
  - intros [<-|[]]; discriminate.
  - intros [<-|[]]; discriminate.
  - destruct (tagMatch fullMatch); [|intros []].
    intros [<-|[]]; simpl; destruct (ends_with fullMatch "/>"); discriminate.
Qed.

Lemma many_stop_lt s :
  char_at s (many not_lt s) = None \/ char_at s (many not_lt s) = Some "<"%char.
Proof.
  destruct (char_at s (many not_lt s)) as [c|] eqn:E; auto.
  right. apply many_stop in E. unfold not_lt in E.
  destruct (c =? "<")%char eqn:C; [|discriminate].
  apply Ascii.eqb_eq in C. now subst.
Qed.

(** The step of the tokenizer at a run of characters without [<]. *)
Lemma tokenize_from_run run rest index :
  run <> "" ->
  all_chars not_lt run = true ->
  (rest = "" \/ head_is "<" rest = true) ->
  tokenize_from (run ++ rest) index 0 =
  push_token Text run index
    ++ tokenize_from rest (index + String.length run) 0.
Proof.
  intros Hne Hall Hrest.
  destruct run as [|c r]; [congruence|].
  assert (Hc : not_lt c = true) by (simpl in Hall; now apply andb_true_iff in Hall).
  assert (Hmany : many not_lt (String c r ++ rest) = String.length (String c r)).
  { apply many_app_stop; auto.
    destruct Hrest as [->|H]; auto.
    right. destruct rest as [|x rest']; [discriminate|].
    exists x, rest'. split; auto.
    simpl in H. unfold not_lt. now rewrite H. }
  change (String c r ++ rest)%string with (String c (r ++ rest)) in *.
  cbn [tokenize_from].
  rewrite (tokenRegex_at_text c (r ++ rest) Hc), Hmany.
  change (String c (r ++ rest)) with (String c r ++ rest)%string.
  rewrite take_app_length. f_equal.
  rewrite tokenize_from_skip.
  - simpl. rewrite Nat.sub_0_r, drop_app_length. f_equal. lia.
  - simpl. rewrite length_app. lia.
Qed.

(** Every text token comes from such a run. *)
Lemma tokenize_from_text_tokens s index skip t :
  In t (tokenize_from s index skip) ->
  type t = text ->
  exists p,
    index + skip <= p /\ endIndex t <= index + String.length s
    /\ text_run (run_between s index p (endIndex t))
                (drop (endIndex t - index) s)
    /\ text_token_of (run_between s index p (endIndex t)) p t.
Proof.
  revert index skip; induction s as [|c r IH]; intros index skip Hin Ht;
    [destruct Hin|].
  assert (Hshift : forall k, index + skip <= S index + k ->
             In t (tokenize_from r (S index) k) ->
             exists p,
               index + skip <= p
               /\ endIndex t <= index + String.length (String c r)
               /\ text_run (run_between (String c r) index p (endIndex t))
                           (drop (endIndex t - index) (String c r))
               /\ text_token_of
                    (run_between (String c r) index p (endIndex t)) p t).
  { intros k Hk Hin'.
    destruct (IH (S index) k Hin' Ht) as (p & H1 & H2 & H3 & H4).
    exists p.
    assert (He : p <= endIndex t) by (destruct H4 as (_ & -> & _); lia).
    unfold run_between in *.
    replace (p - index) with (S (p - S index)) by lia.
    replace (endIndex t - index) with (S (endIndex t - S index)) by lia.
    cbn [drop String.length].
    repeat split; try apply H3; try apply H4; lia. }
  cbn [tokenize_from] in Hin.
  destruct skip as [|k].
  - destruct (tokenRegex_at (String c r)) as [[alt len]|] eqn:E.
    + apply in_app_or in Hin as [Hin|Hin].
      * pose proof (push_token_type _ _ _ _ Hin Ht) as ->.
        apply tokenRegex_at_Text in E as [-> Hpos].
        set (s := String c r) in *.
        pose proof (many_le not_lt s) as Hle.
        assert (Hne : take (many not_lt s) s <> "").
        { intros Hz. apply length_zero in Hz. rewrite length_take in Hz. lia. }
        rewrite (push_token_text _ index Hne) in Hin.
        destruct Hin as [<-|[]]. cbn [endIndex startIndex content type].
        rewrite length_take, Nat.min_l by lia.
        exists index. unfold run_between.
        replace (index + many not_lt s - index) with (many not_lt s) by lia.
        rewrite Nat.sub_diag. cbn [drop].
        split; [lia|]. split; [lia|]. split.
        -- split; [exact Hne|]. split; [apply many_all|].
           destruct (many_stop_lt s) as [H|H]; rewrite <- (Nat.add_0_r (many _ _)),
             <- char_at_drop in H; unfold char_at in H;
             destruct (drop (many not_lt s) s) as [|x y]; simpl in *; auto;
             try discriminate.
           right. injection H as ->. reflexivity.
        -- unfold text_token_of. cbn [endIndex startIndex content type].
           rewrite length_take, Nat.min_l by lia.
           split; [reflexivity|]. split; [reflexivity|].
           destruct (all_chars is_space (take (many not_lt s) s)); split;
             auto; lia.
      * apply Hshift in Hin; auto. lia.
    + apply Hshift in Hin; auto. lia.
  - apply Hshift in Hin; auto. lia.
Qed.

Lemma text_token_of_span run p t :
  text_token_of run p t ->
  String.length (string_of (content t)) <= endIndex t - startIndex t.
Proof.
  intros (_ & -> & H).
  destruct (all_chars is_space run); destruct H as [-> ->]; simpl.
  - lia.
  - pose proof (trim_length run). pose proof (many_le is_space run). lia.
Qed.

(** C4. Where the tokenizer stands at a run of characters other than [<],
    it makes one text token of it, and every text token of every raw text is
    made of such a run. A run of white space only keeps its span and its
    content; otherwise the start is moved past the leading white space and the
    content is the trimmed run, while the end stays the end of the run. The
    content is never longer than the span, and can be shorter. *)
Theorem text_token_keeps_run_end :
  (forall run rest index,
      text_run run rest ->
      exists t,
        tokenize_from (run ++ rest) index 0
        = t :: tokenize_from rest (index + String.length run) 0
        /\ text_token_of run index t)
  /\ (forall xmlString t,
        In t (tokenize xmlString) ->
        type t = text ->
        exists p,
          text_run (substring xmlString p (endIndex t))
                   (drop (endIndex t) xmlString)
          /\ text_token_of (substring xmlString p (endIndex t)) p t)
  /\ (forall run p t,
        text_token_of run p t ->
        String.length (string_of (content t)) <= endIndex t - startIndex t)
  /\ (exists t,
        tokenize "a " = [t] /\ content t = Some "a"
        /\ endIndex t - startIndex t = 2).
Proof.
  split; [|split; [|split]].
  - intros run rest index (Hne & Hall & Hrest).
    rewrite tokenize_from_run by auto.
    rewrite (push_token_text _ index Hne).
    eexists. split; [reflexivity|].
    unfold text_token_of. cbn [type endIndex startIndex content].
    split; [reflexivity|]. split; [reflexivity|].
    destruct (all_chars is_space run); split; auto; lia.
  - intros xmlString t Hin Ht.
    destruct (tokenize_from_text_tokens _ _ _ _ Hin Ht)
      as (p & _ & He & Hrun & Htok).
    exists p.
    assert (Hp : p <= endIndex t) by (destruct Htok as (_ & -> & _); lia).
    unfold run_between in *. rewrite !Nat.sub_0_r in *.
    unfold substring. rewrite Nat.max_r, Nat.min_l by lia. auto.
  - apply text_token_of_span.
  - eexists. split; [reflexivity|]. split; reflexivity.
Qed.

Lemma text_token_keeps_run_end_witness :
  exists t,
    tokenize_from ("  Hi " ++ "<b>") 7 0 = t :: tokenize_from "<b>" 12 0
    /\ startIndex t = 9 /\ endIndex t = 12 /\ content t = Some "Hi".
Proof.
  destruct (proj1 text_token_keeps_run_end "  Hi " "<b>" 7) as (t & H1 & H2).
  - split; [discriminate|]. split; [reflexivity|]. right; reflexivity.
  - exists t. split; [exact H1|].
    destruct H2 as (_ & H3 & H4 & H5). simpl in *. auto.
Defined.

(** ** Parser: the function and the relation *)

Lemma nextIndex_finish token parent l c :
  nextIndex (finish token parent l c) = loop_nextIndex l.
Proof. unfold finish. now destruct (resolve _ _ _). Qed.

Lemma node_finish token parent l c :
  node (finish token parent l c) =
  Build_ParsedNode (element_id c)
    (fst (resolve (tag token) parent (attributes token)))
    (assign "data-id" (element_id c)
       (snd (resolve (tag token) parent (attributes token))))
    (children l) (startIndex token) (finalEndIndex l)
    (endIndex token) (contentEndIndex l).
Proof. unfold finish. now destruct (resolve _ _ _). Qed.

Lemma nth_error_lt {A} (l : list A) i x :
  nth_error l i = Some x -> i < List.length l.
Proof. intros H. apply nth_error_Some. congruence. Qed.

(** What [parse] and its loop return, they return by the rules of the
    relation. *)
Lemma parse_sound tokens fuel :
  (forall index parent c res c',
      parse fuel tokens index parent c = Done res c' ->
      Parses tokens index parent c res c')
  /\ (forall tagName l c l' c',
        consume fuel tokens tagName l c = Done l' c' ->
        exists heads, Consumes tokens tagName l c heads l' c').
Proof.
  induction fuel as [|fuel [IHp IHc]]; [split; intros; discriminate|].
  split.
  - intros index parent c res c' H. cbn [parse] in H.
    destruct (nth_error tokens index) as [token|] eqn:Hn.
    2:{ injection H as <- <-. now constructor. }
    destruct (is_element_start token) eqn:Hs; cbn [negb] in H.
    2:{ injection H as <- <-. econstructor 2; eauto. }
    destruct (TokenType_eqb (type token) open) eqn:Ho.
    + destruct (consume fuel tokens (tag token) (loop_start token index) c)
        as [|l k] eqn:Hc; [discriminate|].
      injection H as <- <-.
      apply IHc in Hc as [heads Hc].
      econstructor 4; eauto.
    + injection H as <- <-. now constructor 3.
  - intros tagName l c l' c' H. cbn [consume] in H.
    destruct (loop_nextIndex l <? List.length tokens) eqn:Hlt.
    2:{ injection H as <- <-. apply Nat.ltb_ge in Hlt.
        exists []. now constructor. }
    destruct (nth_error tokens (loop_nextIndex l)) as [nextToken|] eqn:Hn.
    2:{ apply Nat.ltb_lt in Hlt. apply nth_error_None in Hn. lia. }
    destruct (closes nextToken tagName) eqn:Hcl.
    { injection H as <- <-. eexists. econstructor 2; eauto. }
    destruct (TokenType_eqb (type nextToken) text) eqn:Ht.
    { destruct (truthy (content nextToken)) eqn:Hy.
      - apply IHc in H as [heads H]. eexists. econstructor 3; eauto.
      - apply IHc in H as [heads H]. eexists. econstructor 4; eauto.
        now rewrite Ht, Hy. }
    destruct (is_element_start nextToken) eqn:Hs.
    { destruct (parse fuel tokens (loop_nextIndex l) tagName c)
        as [|[result|] k] eqn:Hp; [discriminate| |].
      - apply IHp in Hp. apply IHc in H as [heads H].
        eexists. econstructor 5; eauto.
      - apply IHp in Hp. apply IHc in H as [heads H].
        eexists. econstructor 6; eauto. }
    apply IHc in H as [heads H]. eexists. econstructor 4; eauto.
    now rewrite Ht, Hs.
Qed.

(** Progress: a returned [nextIndex] is past the index given and within the
    tokens; the loop only moves forward. *)
Lemma Parses_progress tokens :
  (forall index parent c res c',
      Parses tokens index parent c res c' ->
      match res with
      | Some r => index < nextIndex r <= List.length tokens
      | None => forall token, nth_error tokens index = Some token ->
                              is_element_start token = false
      end)
  /\ (forall tagName l c heads l' c',
        Consumes tokens tagName l c heads l' c' ->
        loop_nextIndex l <= List.length tokens ->
        loop_nextIndex l <= loop_nextIndex l' <= List.length tokens).
Proof.
  apply Parses_Consumes_ind.
  - intros. congruence.
  - intros. congruence.
  - intros index parent c token Hn _ _. rewrite nextIndex_finish.
    apply nth_error_lt in Hn. simpl. lia.
  - intros index parent c token heads l c' Hn _ _ IH.
    rewrite nextIndex_finish. apply nth_error_lt in Hn.
    simpl in IH. lia.
  - intros. lia.
  - intros tagName l c nextToken Hn _ _. apply nth_error_lt in Hn. simpl. lia.
  - intros tagName l c nextToken heads l' c' Hn _ _ _ _ IH _.
    apply nth_error_lt in Hn. simpl in IH. lia.
  - intros tagName l c nextToken heads l' c' Hn _ _ _ IH _.
    apply nth_error_lt in Hn. simpl in IH. lia.
  - intros tagName l c nextToken result c1 heads l' c' Hn _ _ _ _ IHp _ IH _.
    simpl in IH. lia.
  - intros tagName l c nextToken c1 heads l' c' Hn _ _ _ _ _ _ IH _.
    apply nth_error_lt in Hn. simpl in IH. lia.
Qed.



(** With more budget the result is the same. *)
Lemma parse_fuel_mono tokens fuel :
  (forall index parent c res c' fuel',
      parse fuel tokens index parent c = Done res c' ->
      fuel <= fuel' ->
      parse fuel' tokens index parent c = Done res c')
  /\ (forall tagName l c l' c' fuel',
        consume fuel tokens tagName l c = Done l' c' ->
        fuel <= fuel' ->
        consume fuel' tokens tagName l c = Done l' c').
Proof.
  induction fuel as [|fuel [IHp IHc]]; [split; intros; discriminate|].
  split.
  - intros index parent c res c' [|fuel'] H Hle; [lia|].
    cbn [parse] in *.
    destruct (nth_error tokens index) as [token|]; auto.
    destruct (negb (is_element_start token)); auto.
    destruct (TokenType_eqb (type token) open); auto.
    destruct (consume fuel tokens (tag token) (loop_start token index) c)
      as [|l k] eqn:Hc; [discriminate|].
    rewrite (IHc _ _ _ _ _ fuel' Hc) by lia. exact H.
  - intros tagName l c l' c' [|fuel'] H Hle; [lia|].
    cbn [consume] in *.
    destruct (loop_nextIndex l <? List.length tokens); auto.
    destruct (nth_error tokens (loop_nextIndex l)) as [nextToken|]; auto.
    destruct (closes nextToken tagName); auto.
    destruct (TokenType_eqb (type nextToken) text).
    { destruct (truthy (content nextToken)); apply IHc; auto; lia. }
    destruct (is_element_start nextToken); [|apply IHc; auto; lia].
    destruct (parse fuel tokens (loop_nextIndex l) tagName c)
      as [|res k] eqn:Hp; [discriminate|].
    rewrite (IHp _ _ _ _ _ fuel' Hp) by lia.
    destruct res; apply IHc; auto; lia.
Qed.

(** ** Progress and totality of the parser *)

Lemma TokenType_eqb_eq a b : TokenType_eqb a b = true <-> a = b.
Proof. destruct a, b; simpl; split; congruence. Qed.



Lemma findIndex_nth p tokens i :
  findIndex p tokens = Some i ->
  exists u, nth_error tokens i = Some u /\ p u = true.
Proof.
  revert i; induction tokens as [|x r IH]; intros i H; [discriminate|].
  simpl in H. destruct (p x) eqn:E.
  - injection H as <-. exists x. auto.
  - destruct (findIndex p r) as [k|]; [|discriminate].
    injection H as <-. destruct (IH k eq_refl) as (u & Hu & Hp).
    exists u. auto.
Qed.



(** The other way round: a tree comes from [parse] at the first open
    token. *)
Lemma parseDocBook_inv wellFormed xmlString tree :
  parseDocBook wellFormed xmlString = Some tree ->
  exists i u r c',
    wellFormed xmlString = true
    /\ nth_error (tokenize xmlString) i = Some u /\ type u = open
    /\ parse (parse_fuel (tokenize xmlString) i) (tokenize xmlString) i None 0
       = Done (Some r) c'
    /\ tree = node r.
Proof.
  unfold parseDocBook.
  destruct (wellFormed xmlString); cbn [negb]; [|discriminate].
  destruct (List.length (tokenize xmlString) =? 0); [discriminate|].
  destruct (findIndex _ (tokenize xmlString)) as [i|] eqn:Hi; [|discriminate].
  destruct (parse _ _ i None 0) as [|[r|] c'] eqn:Hp; try discriminate.
  intros [= <-].
  destruct (findIndex_nth _ _ _ Hi) as (u & Hu & Hp').
  exists i, u, r, c'. repeat split; auto. now apply TokenType_eqb_eq.
Qed.



(** ** How an element is closed *)

Lemma outcome_cons tokens tagName h tk heads l l1 l' :
  nth_error tokens h = Some tk ->
  closes tk tagName = false ->
  contentEndIndex l1 = contentEndIndex l ->
  finalEndIndex l1 = finalEndIndex l ->
  closed_at_first_reached tokens tagName heads l'
  \/ never_closed tokens tagName heads l1 l' ->
  closed_at_first_reached tokens tagName (h :: heads) l'
  \/ never_closed tokens tagName (h :: heads) l l'.
Proof.
  intros Hn Hcl Hce Hfe
    [(pre & k & nextToken & -> & H1 & H2 & H3 & H4)|(H1 & H2 & H3 & H4)].
  - left. exists (h :: pre), k, nextToken.
    repeat split; try apply H4; auto.
    intros j tj [<-|Hj] Hj'; [congruence|eauto].
  - right. repeat split; try congruence.
    intros j tj [<-|Hj] Hj'; [congruence|eauto].
Qed.

(** One more turn of the loop, from [l] through [l1] to [l']. *)
Ltac loop_turn l1 Hn HC IH :=
  let Hlt := fresh "Hlt" in
  let Hb := fresh "Hb" in
  let Ho := fresh "Ho" in
  let Hp := fresh "Hp" in
  let Hj := fresh "Hj" in
  pose proof (nth_error_lt _ _ _ Hn) as Hlt;
  destruct IH as [Hb Ho]; [simpl; lia|]; simpl in Hb;
  pose proof (proj2 (Parses_progress _) _ _ _ _ _ _ HC) as Hp;
  simpl in Hp; split;
  [ intros ? [<-|Hj]; [lia|]; apply Hb in Hj; lia
  | eapply (outcome_cons _ _ _ _ _ _ l1); eauto ].

Lemma Consumes_outcome tokens tagName l c heads l' c' :
  Consumes tokens tagName l c heads l' c' ->
  loop_nextIndex l <= List.length tokens ->
  (forall j, In j heads -> loop_nextIndex l <= j < loop_nextIndex l')
  /\ (closed_at_first_reached tokens tagName heads l'
      \/ never_closed tokens tagName heads l l').
Proof.
  revert tagName l c heads l' c'.
  apply (Consumes_mut tokens (fun _ _ _ _ _ => True)
           (fun tagName l c heads l' c' =>
              loop_nextIndex l <= List.length tokens ->
              (forall j, In j heads -> loop_nextIndex l <= j < loop_nextIndex l')
              /\ (closed_at_first_reached tokens tagName heads l'
                  \/ never_closed tokens tagName heads l l'))); auto.
  - intros tagName l c Hge Hle. split; [intros j []|].
    right. repeat split; auto; try lia. intros j tj [].
  - intros tagName l c nextToken Hn Hcl Hle. split.
    + intros j [<-|[]]. simpl. lia.
    + left. exists [], (loop_nextIndex l), nextToken.
      repeat split; auto. intros j tj [].
  - intros tagName l c nextToken heads l' c' Hn Hcl _ _ HC IH Hle.
    loop_turn (push (text_child nextToken c) (loop_nextIndex l + 1) l) Hn HC IH.
  - intros tagName l c nextToken heads l' c' Hn Hcl _ HC IH Hle.
    loop_turn (advance l) Hn HC IH.
  - intros tagName l c nextToken result c1 heads l' c' Hn Hcl _ _ HP _ HC IH Hle.
    apply (proj1 (Parses_progress tokens)) in HP. simpl in HP.
    loop_turn (push (Element (node result)) (nextIndex result) l) Hn HC IH.
  - intros tagName l c nextToken c1 heads l' c' Hn Hcl _ _ HP _ HC IH Hle.
    loop_turn (advance l) Hn HC IH.
Qed.

Lemma Parses_open_inv tokens index token parent c r c' :
  nth_error tokens index = Some token ->
  type token = open ->
  Parses tokens index parent c (Some r) c' ->
  exists heads l cl,
    Consumes tokens (tag token) (loop_start token index) c heads l cl
    /\ r = finish token parent l cl /\ c' = S cl.
Proof.
  intros Hn Ht HP.
  inversion HP as [ | | i p k tk Hn' Hs Ho | i p k tk heads l cl Hn' Ho HC ];
    subst; rewrite Hn in Hn'; injection Hn' as <-.
  - rewrite Ht in Ho. discriminate.
  - exists heads, l, cl. auto.
Qed.

(** C1. An element opened at an open token is closed by the first close
    token of its name among the tokens that its own loop examines; the tokens
    taken by the parse of a nested element are not among them. On the match
    [contentEndIndex] is the start of that close token and [endIndex] its end;
    without a match the loop runs to the end of the tokens. *)
Theorem closed_by_first_close_reached :
  forall fuel tokens index token parent c r c',
    nth_error tokens index = Some token ->
    type token = open ->
    parse fuel tokens index parent c = Done (Some r) c' ->
    exists heads l cl,
      Consumes tokens (tag token) (loop_start token index) c heads l cl
      /\ r = finish token parent l cl
      /\ ((exists pre k nextToken,
              heads = pre ++ [k]
              /\ nth_error tokens k = Some nextToken
              /\ type nextToken = close
              /\ same_tag (tag nextToken) (tag token) = true
              /\ (forall j tj, In j pre -> nth_error tokens j = Some tj ->
                               closes tj (tag token) = false)
              /\ node_contentEndIndex (node r) = startIndex nextToken
              /\ node_endIndex (node r) = endIndex nextToken
              /\ nextIndex r = k + 1)
          \/ ((forall j tj, In j heads -> nth_error tokens j = Some tj ->
                            closes tj (tag token) = false)
              /\ node_contentEndIndex (node r) = endIndex token
              /\ node_endIndex (node r) = endIndex token
              /\ nextIndex r = List.length tokens)).
Proof.
  intros fuel tokens index token parent c r c' Hn Ht H.
  apply (proj1 (parse_sound tokens fuel)) in H.
  destruct (Parses_open_inv _ _ _ _ _ _ _ Hn Ht H) as (heads & l & cl & HC & -> & _).
  exists heads, l, cl. split; [exact HC|]. split; [reflexivity|].
  rewrite node_finish, nextIndex_finish.
  cbn [node_contentEndIndex node_endIndex].
  apply nth_error_lt in Hn.
  destruct (Consumes_outcome _ _ _ _ _ _ _ HC) as [_ Ho]; [simpl; lia|].
  destruct Ho as [(pre & k & tk & H1 & H2 & H3 & H4 & H5 & H6 & H7)
                 |(H1 & H2 & H3 & H4)].
  - left. exists pre, k, tk.
    unfold closes in H3. apply andb_true_iff in H3 as [H3 H3'].
    apply TokenType_eqb_eq in H3. repeat split; auto.
  - right. simpl in *. auto.
Qed.

Lemma closed_by_first_close_reached_witness :
  exists r c',
    parse 13 (tokenize nested_sample) 0 None 0 = Done (Some r) c'
    /\ node_endIndex (node r) = 16
    /\ exists heads l cl,
         Consumes (tokenize nested_sample) (Some "a")
           {| children := []; contentEndIndex := 3; finalEndIndex := 3;
              loop_nextIndex := 1 |} 0 heads l cl
         /\ loop_nextIndex l = 6.
Proof.
  destruct (parse 13 (tokenize nested_sample) 0 None 0) as [|[r|] c'] eqn:E;
    try (vm_compute in E; discriminate).
  exists r, c'. split; [reflexivity|].
  destruct (closed_by_first_close_reached 13 (tokenize nested_sample) 0 _
              None 0 r c' eq_refl eq_refl E)
    as (heads & l & cl & HC & Hr & _).
  vm_compute in E. injection E as E _.
  split; [now rewrite <- E|].
  exists heads, l, cl. split; [exact HC|].
  apply (f_equal nextIndex) in Hr. rewrite nextIndex_finish in Hr.
  rewrite <- Hr, <- E. reflexivity.
Defined.

(** C1, as stated, fails: in [<a><a>x</a>y</a>] the first close token of the
    name ends at offset 11 and belongs to the inner element; the outer
    element ends at offset 16, at the second one. *)
Lemma nested_same_name_not_closed_early :
  ~ (forall tokens index token parent c r c',
        nth_error tokens index = Some token ->
        type token = open ->
        parse (parse_fuel tokens index) tokens index parent c
        = Done (Some r) c' ->
        closed_at_first_close_of_name tokens index (tag token) r).
Proof.
  intros H.
  destruct (parse (parse_fuel (tokenize nested_sample) 0)
              (tokenize nested_sample) 0 None 0) as [|[r|] c'] eqn:E;
    try (vm_compute in E; discriminate).
  specialize (H (tokenize nested_sample) 0 _ None 0 r c' eq_refl eq_refl E).
  vm_compute in E. injection E as <- <-.
  vm_compute in H. destruct H as [H _]. discriminate.
Qed.

(** ** Unterminated elements *)




(** ** Spans of siblings and of parent and child *)

Lemma ordered_from_nth lo tokens :
  ordered_from lo tokens ->
  (forall i t, nth_error tokens i = Some t ->
               lo <= startIndex t /\ startIndex t <= endIndex t)
  /\ (forall i j ti tj, i < j -> nth_error tokens i = Some ti ->
                        nth_error tokens j = Some tj ->
                        endIndex ti <= startIndex tj).
Proof.
  revert lo; induction tokens as [|x r IH]; intros lo H.
  - split; intros; destruct i; discriminate.
  - destruct H as (H1 & H2 & H3). destruct (IH _ H3) as [IH1 IH2].
    split.
    + intros [|i] t Hi; simpl in Hi.
      * injection Hi as <-. lia.
      * apply IH1 in Hi. lia.
    + intros [|i] [|j] ti tj Hlt Hi Hj; simpl in *; try lia.
      * injection Hi as <-. apply IH1 in Hj. lia.
      * apply (IH2 i j ti tj); auto. lia.
Qed.

Lemma StronglySorted_snoc {A} (R : A -> A -> Prop) l y :
  StronglySorted R l -> (forall x, In x l -> R x y) ->
  StronglySorted R (l ++ [y]).
Proof.
  induction 1 as [|a l Hs IH Ha]; intros Hy; simpl.
  - constructor; constructor.
  - constructor.
    + apply IH. intros x Hx. apply Hy. now right.
    + apply Forall_app. split; [exact Ha|].
      constructor; [|constructor]. apply Hy. now left.
Qed.

Lemma subnodes_eq n :
  subnodes n = n :: flat_map child_subnodes (node_children n).
Proof. destruct n. reflexivity. Qed.

Ltac split_invariant := split; [|split; [|split; [|split]]].

Lemma loop_spans_advance tokens cs l :
  loop_spans_ok tokens cs l -> loop_spans_ok tokens cs (advance l).
Proof.
  intros (H1 & H2 & H3 & H4 & H5). split_invariant; simpl; auto.
  - intros c j tj Hc Hj. apply H3; auto. lia.
  - intros j tj Hj. apply H4. lia.
Qed.

Lemma loop_spans_push tokens cs l child next :
  loop_spans_ok tokens cs l ->
  loop_nextIndex l <= next ->
  (forall c, In c (children l) -> before c child) ->
  cs <= child_startIndex child <= child_endIndex child ->
  (forall j tj, next <= j -> nth_error tokens j = Some tj ->
                child_endIndex child <= startIndex tj) ->
  Forall node_spans_ok (child_subnodes child) ->
  loop_spans_ok tokens cs (push child next l).
Proof.
  intros (H1 & H2 & H3 & H4 & H5) Hle Hb Hs He Hok.
  split_invariant; simpl.
  - now apply StronglySorted_snoc.
  - intros c [Hc|[<-|[]]]%in_app_or; [now apply H2 | lia].
  - intros c j tj [Hc|[<-|[]]]%in_app_or Hj Hn.
    + apply (H3 c j tj); auto. lia.
    + apply (He j tj); auto.
  - intros j tj Hj. apply H4. lia.
  - rewrite flat_map_app. apply Forall_app. split; auto.
    simpl. now rewrite app_nil_r.
Qed.

Lemma Parses_spans tokens lo :
  ordered_from lo tokens ->
  (forall index parent c res c',
      Parses tokens index parent c res c' ->
      forall r, res = Some r ->
        (exists token, nth_error tokens index = Some token
                       /\ node_startIndex (node r) = startIndex token)
        /\ node_startIndex (node r) <= node_endIndex (node r)
        /\ (forall j tj, nextIndex r <= j -> nth_error tokens j = Some tj ->
                         node_endIndex (node r) <= startIndex tj)
        /\ Forall node_spans_ok (subnodes (node r)))
  /\ (forall tagName l c heads l' c',
        Consumes tokens tagName l c heads l' c' ->
        forall cs,
          loop_nextIndex l <= List.length tokens ->
          loop_spans_ok tokens cs l ->
          loop_spans_ok tokens cs l'
          /\ ((contentEndIndex l' = contentEndIndex l
               /\ finalEndIndex l' = finalEndIndex l)
              \/ forall c, In c (children l') ->
                           child_endIndex c <= contentEndIndex l')).
Proof.
  intros Hord. destruct (ordered_from_nth _ _ Hord) as [Hspan Hnext].
  apply Parses_Consumes_ind.
  - intros; discriminate.
  - intros; discriminate.
  - intros index parent c token Hn _ _ r [= <-].
    rewrite node_finish, nextIndex_finish, subnodes_eq. simpl.
    split; [eauto|]. split; [apply (Hspan _ _ Hn)|]. split.
    + intros j tj Hj Hn'. apply (Hnext index j token tj); auto. lia.
    + constructor; [|constructor].
      split; [|split]; simpl.
      * constructor.
      * intros c0 [].
      * intros _ c0 [].
  - intros index parent c token heads l c' Hn _ HC IH r [= <-].
    rewrite node_finish, nextIndex_finish, subnodes_eq. simpl.
    apply nth_error_lt in Hn as Hlt.
    destruct (IH (endIndex token)) as [(H1 & H2 & H3 & H4 & H5) Hd].
    { simpl. lia. }
    { split_invariant; simpl.
      - constructor.
      - intros c0 [].
      - intros c0 j tj [].
      - intros j tj Hj Hn'. apply (Hnext index j token tj); auto. lia.
      - constructor. }
    pose proof (Hspan _ _ Hn) as Htok.
    destruct (Consumes_outcome _ _ _ _ _ _ _ HC) as [Hb Ho]; [simpl; lia|].
    split; [eauto|]. split; [|split].
    + destruct Ho as [(pre & k & tk & -> & Hk & _ & _ & _ & -> & Hk')
                     |(_ & _ & -> & _)]; [|simpl; lia].
      assert (Hin : In k (pre ++ [k])) by (apply in_or_app; right; now left).
      apply Hb in Hin. simpl in Hin.
      pose proof (Hnext index k token tk ltac:(lia) Hn Hk).
      pose proof (Hspan _ _ Hk). lia.
    + intros j tj Hj Hn'.
      destruct Ho as [(pre & k & tk & _ & Hk & _ & _ & _ & -> & Hk')
                     |(_ & _ & Hf & _)].
      * apply (Hnext k j tk tj); auto. lia.
      * rewrite Hf. simpl. apply (Hnext index j token tj); auto.
        pose proof (proj2 (Parses_progress tokens) _ _ _ _ _ _ HC) as Hp.
        simpl in Hp. lia.
    + constructor; auto.
      split; [|split]; simpl; auto.
      destruct Hd as [[Hc Hf]|Hd]; auto.
      rewrite Hc, Hf. simpl. intros; lia.
  - intros. auto.
  - intros tagName l c nextToken Hn _ cs Hle (H1 & H2 & H3 & H4 & H5).
    split.
    + split_invariant; simpl; auto.
      * intros c0 j tj Hc Hj. apply H3; auto. lia.
      * intros j tj Hj. apply H4. lia.
    + right. simpl. intros c0 Hc.
      apply (H3 c0 (loop_nextIndex l) nextToken); auto.
  - intros tagName l c nextToken heads l' c' Hn _ _ _ _ IH cs Hle Hinv.
    apply nth_error_lt in Hn as Hlt.
    destruct Hinv as (H1 & H2 & H3 & H4 & H5).
    destruct (IH cs) as [Hinv' Hd]; [simpl; lia| |split; auto].
    apply loop_spans_push; simpl; try lia.
    + split_invariant; auto.
    + intros c0 Hc. unfold before. simpl.
      apply (H3 c0 (loop_nextIndex l) nextToken); auto.
    + split; [apply (H4 (loop_nextIndex l) nextToken); auto|].
      apply (Hspan _ _ Hn).
    + intros j tj Hj Hn'.
      apply (Hnext (loop_nextIndex l) j nextToken tj); auto. lia.
    + constructor.
  - intros tagName l c nextToken heads l' c' Hn _ _ _ IH cs Hle Hinv.
    apply nth_error_lt in Hn as Hlt.
    destruct (IH cs) as [Hinv' Hd]; [simpl; lia| |split; auto].
    now apply loop_spans_advance.
  - intros tagName l c nextToken result c1 heads l' c' Hn _ _ _ HP IHP _ IH
      cs Hle Hinv.
    apply nth_error_lt in Hn as Hlt.
    apply (proj1 (Parses_progress tokens)) in HP. simpl in HP.
    destruct (IHP result eq_refl) as ((tk & Htk & Hs) & Hse & He & Hok).
    rewrite Hn in Htk. injection Htk as <-.
    destruct Hinv as (H1 & H2 & H3 & H4 & H5).
    destruct (IH cs) as [Hinv' Hd]; [simpl; lia| |split; auto].
    apply loop_spans_push; simpl; try lia.
    + split_invariant; auto.
    + intros c0 Hc. unfold before. simpl. rewrite Hs.
      apply (H3 c0 (loop_nextIndex l) nextToken); auto.
    + split; [|exact Hse].
      rewrite Hs. apply (H4 (loop_nextIndex l) nextToken); auto.
    + exact He.
    + exact Hok.
  - intros tagName l c nextToken c1 heads l' c' Hn _ _ _ _ _ _ IH cs Hle Hinv.
    apply nth_error_lt in Hn as Hlt.
    destruct (IH cs) as [Hinv' Hd]; [simpl; lia| |split; auto].
    now apply loop_spans_advance.
Qed.

(** C3. In the tree of every accepted input, the children of every Node are
    in document order and do not overlap (an earlier sibling ends where a
    later one starts, or before), and no child starts before the content
    start of its parent; where the Node was ended by a close token (its end
    is then past its content end) no child ends past its content end. *)
Theorem sibling_and_child_spans :
  forall wellFormed xmlString tree,
    parseDocBook wellFormed xmlString = Some tree ->
    forall n, In n (subnodes tree) ->
      StronglySorted before (node_children n)
      /\ (forall c, In c (node_children n) ->
                    node_contentStartIndex n <= child_startIndex c
                    /\ child_startIndex c <= child_endIndex c)
      /\ (node_contentEndIndex n < node_endIndex n ->
          forall c, In c (node_children n) ->
                    child_endIndex c <= node_contentEndIndex n).
Proof.
  intros wellFormed xmlString tree H n Hn.
  destruct (parseDocBook_inv _ _ _ H) as (i & u & r & c' & _ & _ & _ & Hp & ->).
  apply (proj1 (parse_sound _ _)) in Hp.
  destruct (proj1 (Parses_spans _ 0 (tokenize_ordered xmlString))
              _ _ _ _ _ Hp r eq_refl) as (_ & _ & _ & Hok).
  rewrite Forall_forall in Hok. exact (Hok n Hn).
Qed.

Lemma sibling_and_child_spans_witness :
  exists n,
    node_id n = "5"
    /\ StronglySorted before (node_children n)
    /\ (forall c, In c (node_children n) ->
                  node_contentStartIndex n <= child_startIndex c
                  /\ child_startIndex c <= child_endIndex c)
    /\ (node_contentEndIndex n < node_endIndex n ->
        forall c, In c (node_children n) ->
                  child_endIndex c <= node_contentEndIndex n).
Proof.
  destruct (parseDocBook (String.eqb sample) sample) as [tree|] eqn:E;
    [|vm_compute in E; discriminate].
  pose proof (sibling_and_child_spans (String.eqb sample) sample tree E) as H.
  vm_compute in E. injection E as <-.
  eexists. split; [|apply H; right; right; left; reflexivity].
  reflexivity.
Defined.

(** C3, as stated, fails: the root of the tree of [<r><![CDATA[<a>]]></r>]
    is left unterminated, so its content span is empty (3 to 3) and its
    children lie after it. *)
Lemma children_outside_unterminated_parent :
  exists tree,
    parseDocBook (String.eqb cdata_sample) cdata_sample = Some tree
    /\ exists n, In n (subnodes tree) /\ ~ children_within_content n.
Proof.
  eexists. split; [vm_compute; reflexivity|].
  eexists. split; [left; reflexivity|].
  intros H.
  destruct (H _ (or_introl eq_refl)) as [_ H']. vm_compute in H'.
  repeat (apply le_S_n in H'). inversion H'.
Qed.

(** ** Ids *)

Lemma toString_inj a b : toString a = toString b -> a = b.
Proof.
  unfold toString. intros H.
  apply (f_equal NilEmpty.uint_of_string) in H.
  rewrite !NilEmpty.usu in H. injection H as H.
  now apply Unsigned.to_uint_inj.
Qed.

Lemma element_id_not_run_id a b : element_id a <> run_id b.
Proof.
  unfold element_id, run_id, toString. intros H.
  apply (f_equal NilEmpty.uint_of_string) in H.
  rewrite NilEmpty.usu in H. simpl in H.
  destruct (NilEmpty.uint_of_string _); discriminate.
Qed.

Lemma id_of_inj k k' id : id_of k id -> id_of k' id -> k = k'.
Proof.
  intros [ -> | -> ] [H|H].
  - now apply toString_inj.
  - now apply element_id_not_run_id in H.
  - symmetry in H. now apply element_id_not_run_id in H.
  - unfold run_id in H. injection H as H. now apply toString_inj.
Qed.

Lemma Forall2_id_of_In ks ids id :
  Forall2 id_of ks ids -> In id ids -> exists k, In k ks /\ id_of k id.
Proof.
  induction 1 as [|k x ks ids Hk _ IH]; intros Hin; [destruct Hin|].
  destruct Hin as [<-|Hin].
  - exists k. split; [now left | exact Hk].
  - destruct (IH Hin) as (k' & Hk' & Hid). exists k'. split; [now right|auto].
Qed.

Lemma Forall2_id_of_NoDup ks ids :
  Forall2 id_of ks ids -> NoDup ks -> NoDup ids.
Proof.
  induction 1 as [|k x ks ids Hk Hrest IH]; intros Hnd; [constructor|].
  inversion Hnd as [|? ? Hnotin Hnd']; subst. constructor; auto.
  intros Hin.
  destruct (Forall2_id_of_In _ _ _ Hrest Hin) as (k' & Hk' & Hid).
  now rewrite (id_of_inj _ _ _ Hk Hid) in Hnotin.
Qed.

Lemma ids_postorder_eq n :
  ids_postorder n
  = flat_map child_ids_postorder (node_children n) ++ [node_id n].
Proof. destruct n. reflexivity. Qed.

Lemma seq_split a b c :
  a <= b -> b <= c -> seq a (c - a) = seq a (b - a) ++ seq b (c - b).
Proof.
  intros H1 H2. replace (c - a) with ((b - a) + (c - b)) by lia.
  rewrite seq_app. do 2 f_equal. lia.
Qed.

(** The counter values taken by one call of [parse], in the order in which
    they are taken, are those of the ids of its Node in post-order. *)
Lemma Parses_ids tokens :
  (forall index parent c res c',
      Parses tokens index parent c res c' ->
      match res with
      | Some r =>
          c < c'
          /\ Forall2 id_of (seq c (c' - c)) (ids_postorder (node r))
      | None => c' = c
      end)
  /\ (forall tagName l c heads l' c',
        Consumes tokens tagName l c heads l' c' ->
        c <= c'
        /\ exists new,
             children l' = children l ++ new
             /\ Forall2 id_of (seq c (c' - c))
                  (flat_map child_ids_postorder new)).
Proof.
  apply Parses_Consumes_ind.
  - reflexivity.
  - reflexivity.
  - intros index parent c token _ _ _.
    rewrite node_finish, ids_postorder_eq.
    cbn [node_children node_id children loop_start flat_map app].
    split; [lia|]. replace (S c - c) with 1 by lia.
    constructor; [now left | constructor].
  - intros index parent c token heads l c' _ _ _ (Hle & new & Hch & Hids).
    rewrite node_finish, ids_postorder_eq.
    cbn [node_children node_id].
    change (children l = new) in Hch. rewrite Hch.
    split; [lia|].
    rewrite (seq_split c c' (S c')) by lia.
    apply Forall2_app; [exact Hids|].
    replace (S c' - c') with 1 by lia.
    constructor; [now left | constructor].
  - intros tagName l c _. split; [lia|].
    exists []. rewrite app_nil_r, Nat.sub_diag. split; [reflexivity|constructor].
  - intros tagName l c nextToken _ _. split; [lia|].
    exists []. rewrite app_nil_r, Nat.sub_diag. split; [reflexivity|constructor].
  - intros tagName l c nextToken heads l' c' _ _ _ _ _
      (Hle & new & Hch & Hids).
    split; [lia|]. exists (text_child nextToken c :: new).
    cbn [children push] in Hch. rewrite <- app_assoc in Hch.
    split; [exact Hch|].
    rewrite (seq_split c (S c) c') by lia.
    replace (S c - c) with 1 by lia.
    cbn [flat_map child_ids_postorder text_child text_id seq app].
    constructor; [now right | exact Hids].
  - intros tagName l c nextToken heads l' c' _ _ _ _ IH. exact IH.
  - intros tagName l c nextToken result c1 heads l' c' _ _ _ _ _ [Hlt Hr] _
      (Hle & new & Hch & Hids).
    split; [lia|]. exists (Element (node result) :: new).
    cbn [children push] in Hch. rewrite <- app_assoc in Hch.
    split; [exact Hch|].
    rewrite (seq_split c c1 c') by lia.
    cbn [flat_map child_ids_postorder].
    apply Forall2_app; auto.
  - intros tagName l c nextToken c1 heads l' c' _ _ _ _ _ -> _ IH. exact IH.
Qed.

(** C9. Within one parse pass the ids of all Nodes and TextRuns are
    pairwise distinct; they are the values of one counter, which starts at 0
    in every call of [parseDocBook] and grows by one with each id, taken in
    post-order: by a TextRun when its token is consumed, by a Node when its
    element is complete, after all its descendants. The tree, and so the ids,
    are a function of the input. *)
Theorem ids_distinct_in_postorder :
  forall wellFormed xmlString tree,
    parseDocBook wellFormed xmlString = Some tree ->
    NoDup (ids_postorder tree)
    /\ Forall2 id_of (seq 0 (List.length (ids_postorder tree)))
         (ids_postorder tree)
    /\ id_of (List.length (ids_postorder tree) - 1) (node_id tree).
Proof.
  intros wellFormed xmlString tree H.
  destruct (parseDocBook_inv _ _ _ H) as (i & u & r & c' & _ & _ & _ & Hp & ->).
  apply (proj1 (parse_sound _ _)) in Hp.
  apply (proj1 (Parses_ids _)) in Hp. destruct Hp as [Hlt Hids].
  rewrite Nat.sub_0_r in Hids.
  pose proof (Forall2_length Hids) as Hlen. rewrite length_seq in Hlen.
  rewrite <- Hlen. split; [|split; [exact Hids|]].
  - eapply Forall2_id_of_NoDup; [exact Hids | apply seq_NoDup].
  - rewrite ids_postorder_eq in Hids.
    destruct c' as [|k]; [lia|].
    rewrite seq_S in Hids. apply Forall2_app_inv_r in Hids.
    destruct Hids as (l1 & l2 & H1 & H2 & H3).
    inversion H2 as [|a b x y Hab Hnil]; subst. inversion Hnil; subst.
    apply app_inj_tail in H3 as [_ <-].
    simpl. now rewrite Nat.sub_0_r.
Qed.

Lemma ids_distinct_in_postorder_witness :
  NoDup ["text-0"; "1"; "text-2"; "text-3"; "4"; "5"; "6"].
Proof.
  destruct (parseDocBook (String.eqb sample) sample) as [tree|] eqn:E;
    [|vm_compute in E; discriminate].
  pose proof (proj1 (ids_distinct_in_postorder (String.eqb sample) sample
                       tree E)) as H.
  vm_compute in E. injection E as <-.
  exact H.
Defined.

(** C9, as stated, fails: in the tree of [<a>x</a>] the Node of [a], first in
    document order, has the id 1 and its TextRun the id text-0. *)
Lemma ids_not_in_document_order :
  exists tree,
    parseDocBook (String.eqb "<a>x</a>") "<a>x</a>" = Some tree
    /\ ~ ids_in_document_order tree.
Proof.
  eexists. split; [vm_compute; reflexivity|].
  intros (ks & Hks & Hsorted). simpl in Hks.
  inversion Hks as [|k1 x1 ks1 l1 Hk1 Hrest]; subst.
  inversion Hrest as [|k2 x2 ks2 l2 Hk2 Hnil]; subst.
  inversion Hnil; subst.
  assert (k1 = 1) as -> by (apply (id_of_inj _ _ "1" Hk1); now left).
  assert (k2 = 0) as -> by (apply (id_of_inj _ _ "text-0" Hk2); now right).
  inversion Hsorted as [|? ? _ Hall]; subst.
  inversion Hall as [|? ? Hlt _]; subst. lia.
Qed.

(** ** Variants *)

Lemma parse_result_finish fuel tokens index token parent c r c' :
  nth_error tokens index = Some token ->
  parse fuel tokens index parent c = Done (Some r) c' ->
  exists l cl, r = finish token parent l cl.
Proof.
  intros Hn H. apply (proj1 (parse_sound tokens fuel)) in H.
  inversion H as [ | | i p k tk Hn' Hs Ho | i p k tk heads l cl Hn' Ho HC ];
    subst; rewrite Hn in Hn'; injection Hn' as <-; eauto.
Qed.

(** The elements that a loop adds are returned by [parse] called with the
    tag of the loop's own element as parent. *)
Lemma Consumes_children_parent tokens tagName l c heads l' c' :
  Consumes tokens tagName l c heads l' c' ->
  forall m, In (Element m) (children l') ->
    In (Element m) (children l)
    \/ exists j cj nx cj',
         In j heads
         /\ Parses tokens j tagName cj (Some {| node := m; nextIndex := nx |})
              cj'.
Proof.
  revert tagName l c heads l' c'.
  apply (Consumes_mut tokens (fun _ _ _ _ _ => True)
           (fun tagName l c heads l' c' =>
              forall m, In (Element m) (children l') ->
                In (Element m) (children l)
                \/ exists j cj nx cj',
                     In j heads
                     /\ Parses tokens j tagName cj
                          (Some {| node := m; nextIndex := nx |}) cj')); auto.
  - intros tagName l c nextToken heads l' c' _ _ _ _ _ IH m Hm.
    destruct (IH m Hm) as [Hin|(j & cj & nx & cj' & Hj & HP)].
    + simpl in Hin. apply in_app_or in Hin as [Hin|[Hin|[]]]; auto.
      discriminate.
    + right. exists j, cj, nx, cj'. split; [now right|auto].
  - intros tagName l c nextToken heads l' c' _ _ _ _ IH m Hm.
    destruct (IH m Hm) as [Hin|(j & cj & nx & cj' & Hj & HP)]; auto.
    right. exists j, cj, nx, cj'. split; [now right|auto].
  - intros tagName l c nextToken result c1 heads l' c' _ _ _ _ HP _ _ IH m Hm.
    destruct (IH m Hm) as [Hin|(j & cj & nx & cj' & Hj & HP')].
    + simpl in Hin. apply in_app_or in Hin as [Hin|[Hin|[]]]; auto.
      injection Hin as <-. right.
      exists (loop_nextIndex l), c, (nextIndex result), c1.
      split; [now left|]. now destruct result.
    + right. exists j, cj, nx, cj'. split; [now right|auto].
  - intros tagName l c nextToken c1 heads l' c' _ _ _ _ _ _ _ IH m Hm.
    destruct (IH m Hm) as [Hin|(j & cj & nx & cj' & Hj & HP)]; auto.
    right. exists j, cj, nx, cj'. split; [now right|auto].
Qed.

Lemma parseDocBook_accepted wellFormed xmlString :
  wellFormed xmlString = true ->
  parseDocBook wellFormed xmlString = parseDocBook (fun _ => true) xmlString.
Proof. intros H. unfold parseDocBook. now rewrite H. Qed.

(** C5. The variant of a [title] element follows the tag of its immediate
    parent: [h1] under [article], [h2] under [sect1], [h3] under [sect2] and
    [strong] under any other parent or none; the parent that [parse] is given
    for a child element is the tag of the element whose loop found it. On the
    sample of section 8 the title is an [h1], the emphasis with the role bold
    a [strong], and the TextRun [there] starts where the word stands in the
    input. *)
Theorem title_variant_follows_parent :
  (forall fuel tokens index token parent c r c',
      nth_error tokens index = Some token ->
      tag token = Some "title" ->
      parse fuel tokens index parent c = Done (Some r) c' ->
      node_component (node r)
      = Intrinsic (if is_tag parent "article" then "h1"
                   else if is_tag parent "sect1" then "h2"
                   else if is_tag parent "sect2" then "h3"
                   else "strong"))
  /\ (forall fuel tokens index token parent c r c' m,
        nth_error tokens index = Some token ->
        type token = open ->
        parse fuel tokens index parent c = Done (Some r) c' ->
        In (Element m) (node_children (node r)) ->
        exists j cj nx cj',
          index < j
          /\ Parses tokens j (tag token) cj
               (Some {| node := m; nextIndex := nx |}) cj')
  /\ (forall wellFormed,
        wellFormed sample = true ->
        exists tree title para hi emphasis there,
          parseDocBook wellFormed sample = Some tree
          /\ node_children tree = [Element title; Element para]
          /\ node_component title = Intrinsic "h1"
          /\ node_children para = [TextRun hi; Element emphasis]
          /\ node_component emphasis = Intrinsic "strong"
          /\ node_children emphasis = [TextRun there]
          /\ text_content there = "there"
          /\ index 0 "there" sample = Some (text_startIndex there)).
Proof.
  split; [|split].
  - intros fuel tokens index token parent c r c' Hn Ht H.
    destruct (parse_result_finish _ _ _ _ _ _ _ _ Hn H) as (l & cl & ->).
    rewrite node_finish. cbn [node_component]. rewrite Ht.
    unfold resolve. cbn [is_tag String.eqb Ascii.eqb Bool.eqb].
    destruct (is_tag parent "article"); [reflexivity|].
    destruct (is_tag parent "sect1"); [reflexivity|].
    destruct (is_tag parent "sect2"); reflexivity.
  - intros fuel tokens index token parent c r c' m Hn Ht H Hm.
    apply (proj1 (parse_sound tokens fuel)) in H.
    destruct (Parses_open_inv _ _ _ _ _ _ _ Hn Ht H)
      as (heads & l & cl & HC & -> & _).
    rewrite node_finish in Hm. cbn [node_children] in Hm.
    destruct (Consumes_children_parent _ _ _ _ _ _ _ HC m Hm)
      as [[]|(j & cj & nx & cj' & Hj & HP)].
    exists j, cj, nx, cj'. split; [|exact HP].
    apply nth_error_lt in Hn.
    destruct (Consumes_outcome _ _ _ _ _ _ _ HC) as [Hb _]; [simpl; lia|].
    apply Hb in Hj. simpl in Hj. lia.
  - intros wellFormed Hwf. rewrite (parseDocBook_accepted _ _ Hwf).
    do 6 eexists. split; [vm_compute; reflexivity|].
    repeat split.
Qed.

Lemma title_variant_follows_parent_witness :
  (exists r c',
      parse 30 (tokenize sample) 1 (Some "article") 0 = Done (Some r) c'
      /\ node_component (node r) = Intrinsic "h1")
  /\ exists tree, parseDocBook (String.eqb sample) sample = Some tree.
Proof.
  split.
  - destruct (parse 30 (tokenize sample) 1 (Some "article") 0)
      as [|[r|] c'] eqn:E; try (vm_compute in E; discriminate).
    exists r, c'. split; [reflexivity|].
    exact (proj1 title_variant_follows_parent 30 (tokenize sample) 1 _
             (Some "article") 0 r c' eq_refl eq_refl E).
  - destruct (proj2 (proj2 title_variant_follows_parent) (String.eqb sample))
      as (tree & _ & _ & _ & _ & _ & H & _); [reflexivity|].
    exists tree. exact H.
Defined.

Lemma link_props u id :
  let props :=
    assign "data-id" id
      (assign "rel" "noopener noreferrer"
         (assign "target" "_blank" (assign "href" u []))) in
  lookup "href" props = Some u
  /\ lookup "target" props = Some "_blank"
  /\ lookup "rel" props = Some "noopener noreferrer".
Proof. repeat split. Qed.

Lemma resolve_link tagName parent attributes u :
  tagName = Some "ulink" \/ tagName = Some "link" ->
  or_else (attribute "url" attributes) (attribute "xlink:href" attributes)
  = Some u ->
  u <> "" ->
  resolve tagName parent attributes
  = (Intrinsic "a",
     assign "rel" "noopener noreferrer"
       (assign "target" "_blank" (assign "href" u []))).
Proof.
  intros Ht Hu Hne.
  assert (Hy : truthy (Some u) = true).
  { simpl. destruct u; [congruence|reflexivity]. }
  destruct Ht as [-> | ->]; unfold resolve;
    cbn [is_tag String.eqb Ascii.eqb Bool.eqb tag_component tag_props];
    rewrite Hu, Hy; reflexivity.
Qed.

(** C6. For a [ulink] or [link] element the target is the [url] attribute
    when it is there and not empty, and the [xlink:href] attribute otherwise;
    whenever a target is resolved the Node is an [a] whose props carry it as
    [href], with the target [_blank] and the rel [noopener noreferrer]. For
    the input of section 8 the href is exactly [https://x.test/]. *)
Theorem link_target_from_url_then_xlink :
  (forall fuel tokens index token parent c r c' u,
      nth_error tokens index = Some token ->
      tag token = Some "ulink" \/ tag token = Some "link" ->
      parse fuel tokens index parent c = Done (Some r) c' ->
      u <> "" ->
      attribute "url" (attributes token) = Some u
      \/ (truthy (attribute "url" (attributes token)) = false
          /\ attribute "xlink:href" (attributes token) = Some u) ->
      node_component (node r) = Intrinsic "a"
      /\ lookup "href" (node_props (node r)) = Some u
      /\ lookup "target" (node_props (node r)) = Some "_blank"
      /\ lookup "rel" (node_props (node r)) = Some "noopener noreferrer")
  /\ (forall wellFormed,
        wellFormed ulink_sample = true ->
        exists tree,
          parseDocBook wellFormed ulink_sample = Some tree
          /\ node_component tree = Intrinsic "a"
          /\ lookup "href" (node_props tree) = Some "https://x.test/"
          /\ lookup "target" (node_props tree) = Some "_blank"
          /\ lookup "rel" (node_props tree) = Some "noopener noreferrer").
Proof.
  split.
  - intros fuel tokens index token parent c r c' u Hn Ht H Hne Hu.
    destruct (parse_result_finish _ _ _ _ _ _ _ _ Hn H) as (l & cl & ->).
    rewrite node_finish. cbn [node_component node_props].
    assert (Hor : or_else (attribute "url" (attributes token))
                    (attribute "xlink:href" (attributes token)) = Some u).
    { unfold or_else. destruct Hu as [Hu|[Hf Hu]].
      - rewrite Hu. simpl. destruct u; [congruence|reflexivity].
      - now rewrite Hf. }
    rewrite (resolve_link _ parent _ u Ht Hor Hne). cbn [fst snd].
    split; [reflexivity|]. apply link_props.
  - intros wellFormed Hwf. rewrite (parseDocBook_accepted _ _ Hwf).
    eexists. split; [vm_compute; reflexivity|].
    repeat split.
Qed.

Lemma link_target_from_url_then_xlink_witness :
  (exists r c',
      parse 7 (tokenize ulink_sample) 0 None 0 = Done (Some r) c'
      /\ lookup "href" (node_props (node r)) = Some "https://x.test/")
  /\ exists tree, parseDocBook (String.eqb ulink_sample) ulink_sample = Some tree.
Proof.
  split.
  - destruct (parse 7 (tokenize ulink_sample) 0 None 0)
      as [|[r|] c'] eqn:E; try (vm_compute in E; discriminate).
    exists r, c'. split; [reflexivity|].
    refine (proj1 (proj2 (proj1 link_target_from_url_then_xlink 7
                     (tokenize ulink_sample) 0 _ None 0 r c' "https://x.test/"
                     eq_refl (or_introl eq_refl) E _ (or_introl eq_refl)))).
    discriminate.
  - destruct (proj2 link_target_from_url_then_xlink (String.eqb ulink_sample))
      as (tree & H & _); [reflexivity|].
    exists tree. exact H.
Defined.

(** ** In-place edits *)

Lemma app_assoc_string (a b c : string) :
  ((a ++ b) ++ c = a ++ (b ++ c))%string.
Proof. induction a as [|x r IH]; simpl; auto. now rewrite IH. Qed.

Lemma replace_all_app c by_ s t :
  replace_all c by_ (s ++ t)
  = (replace_all c by_ s ++ replace_all c by_ t)%string.
Proof.
  induction s as [|x r IH]; simpl; auto.
  destruct (x =? c)%char; rewrite IH; auto.
  now rewrite app_assoc_string.
Qed.

(** The three replacements in a row escape each character on its own. *)
Lemma escapedText_escape newContent : escapedText newContent = escape newContent.
Proof.
  unfold escapedText.
  induction newContent as [|x r IH]; [reflexivity|].
  cbn [replace_all escape]. unfold escape_char.
  destruct (x =? "&")%char eqn:E1.
  { rewrite !replace_all_app, IH. reflexivity. }
  destruct (x =? "<")%char eqn:E2.
  { cbn [replace_all]. rewrite E2, replace_all_app, IH. reflexivity. }
  cbn [replace_all]. rewrite E2. cbn [replace_all].
  destruct (x =? ">")%char eqn:E3; rewrite IH; reflexivity.
Qed.

(** C7. The patched text is the text before the run's start, the escaped new
    content and the text from the run's end on; the characters before the
    start and those from the end on are the old ones, and the focus intent
    holds the id of the run and the cursor offset. *)
Theorem patch_replaces_exact_span :
  forall code node newContent cursorPosition,
    let newCode := fst (handleTextChange code node newContent cursorPosition) in
    let intent := snd (handleTextChange code node newContent cursorPosition) in
    newCode = (take (text_startIndex node) code ++ escape newContent
               ++ drop (text_endIndex node) code)%string
    /\ (forall i, i < text_startIndex node -> i < String.length code ->
                  char_at newCode i = char_at code i)
    /\ (forall j,
          char_at newCode
            (Nat.min (text_startIndex node) (String.length code)
             + String.length (escape newContent) + j)
          = char_at code (text_endIndex node + j))
    /\ intent = {| nodeId := text_id node; cursor := cursorPosition |}.
Proof.
  intros code node newContent cursorPosition newCode intent.
  assert (Hnew : newCode
                 = (take (text_startIndex node) code ++ escape newContent
                    ++ drop (text_endIndex node) code)%string).
  { unfold newCode, handleTextChange, substring. cbn [fst].
    rewrite escapedText_escape, Nat.max_0_l, Nat.min_0_l, Nat.sub_0_r.
    reflexivity. }
  split; [exact Hnew|]. split; [|split; [|reflexivity]].
  - intros i Hi Hlen. rewrite Hnew, char_at_app_l.
    + now apply char_at_take.
    + rewrite length_take. lia.
  - intros j. rewrite Hnew, <- app_assoc_string.
    rewrite <- (length_take (text_startIndex node) code), <- length_app.
    now rewrite char_at_app_r, char_at_drop.
Qed.

(** ** Word highlighting *)

Lemma wordStart_loop_spec content w :
  let s := wordStart_loop content w in
  s <= w
  /\ (s = 0 \/ boundary_test (char_at content (s - 1)) = true)
  /\ (forall i, s <= i < w -> boundary_test (char_at content i) = false).
Proof.
  induction w as [|w IH]; cbn [wordStart_loop].
  - repeat split; auto. intros i Hi. lia.
  - destruct (boundary_test (char_at content w)) eqn:E; cbn [negb].
    + repeat split; auto.
      * right. now rewrite Nat.sub_succ, Nat.sub_0_r.
      * intros i Hi. lia.
    + destruct IH as (H1 & H2 & H3). repeat split; auto.
      intros i Hi. destruct (Nat.eq_dec i w) as [->|Hne]; auto.
      apply H3. lia.
Qed.

Lemma wordEnd_loop_spec turns content w :
  let e := wordEnd_loop turns content w in
  w <= e
  /\ (e = w \/ e + 1 <= String.length content)
  /\ (forall i, w < i <= e -> boundary_test (char_at content i) = false)
  /\ (String.length content <= w + 1 + turns ->
      String.length content <= e + 1
      \/ boundary_test (char_at content (e + 1)) = true).
Proof.
  revert w; induction turns as [|turns IH]; intros w; cbn [wordEnd_loop].
  - repeat split; auto; intros; lia.
  - destruct (w + 1 <? String.length content) eqn:E1; cbn [andb].
    2:{ apply Nat.ltb_ge in E1. repeat split; auto; intros; lia. }
    apply Nat.ltb_lt in E1.
    destruct (boundary_test (char_at content (w + 1))) eqn:E2; cbn [negb].
    { repeat split; auto; intros; lia. }
    destruct (IH (w + 1)) as (H1 & H2 & H3 & H4). repeat split.
    + lia.
    + right. destruct H2 as [->|H2]; lia.
    + intros i Hi. destruct (Nat.eq_dec i (w + 1)) as [->|Hne]; auto.
      apply H3. lia.
    + intros Hlen. apply H4. lia.
Qed.

(** C8. For an offset inside a TextRun whose content is not longer than its
    span, the word span [s, e) contains the offset, stays inside the span of
    that run and cuts its content in three; it grows from the offset over
    characters that are not boundaries and stops, on each side, at the edge of
    the content or next to a boundary. A boundary is any character of the
    class [\s] or one of [. , ; ? !]. *)
Theorem word_span_within_run :
  forall node syncPos,
    text_startIndex node <= syncPos < text_endIndex node ->
    String.length (text_content node)
    <= text_endIndex node - text_startIndex node ->
    let content := text_content node in
    let relativePos := syncPos - text_startIndex node in
    let s := wordStart content relativePos in
    let e := wordEnd content relativePos + 1 in
    s <= relativePos < e
    /\ text_startIndex node + e <= text_endIndex node
    /\ (relativePos < String.length content -> e <= String.length content)
    /\ (s = 0 \/ boundary_test (char_at content (s - 1)) = true)
    /\ (String.length content <= e
        \/ boundary_test (char_at content e) = true)
    /\ (forall i, s <= i < e -> i <> relativePos ->
                  boundary_test (char_at content i) = false)
    /\ RenderedTextNode node (Some syncPos) (Some editor)
       = Highlighted (take s content) (substring content s e) (drop e content)
    /\ (take s content ++ substring content s e ++ drop e content)%string
       = content.
Proof.
  intros node syncPos Hpos Hlen. cbv zeta.
  set (content := text_content node) in *.
  set (relativePos := syncPos - text_startIndex node).
  destruct (wordStart_loop_spec content relativePos) as (S1 & S2 & S3).
  destruct (wordEnd_loop_spec (String.length content) content relativePos)
    as (E1 & E2 & E3 & E4).
  fold (wordStart content relativePos) in S1, S2, S3.
  fold (wordEnd content relativePos) in E1, E2, E3, E4.
  set (s := wordStart content relativePos) in *.
  set (w := wordEnd content relativePos) in *.
  assert (Hrel : text_startIndex node + relativePos = syncPos)
    by (unfold relativePos; lia).
  assert (Hs : substring content s (w + 1)
               = take (w + 1 - s) (drop s content)).
  { unfold substring. rewrite Nat.max_r, Nat.min_l by lia. reflexivity. }
  split; [lia|]. split; [lia|]. split; [lia|]. split; [exact S2|].
  split; [apply E4; lia|]. split; [|split].
  - intros i Hi Hne.
    destruct (Nat.lt_ge_cases i relativePos); [apply S3|apply E3]; lia.
  - unfold RenderedTextNode, isHighlighted.
    destruct (Nat.leb_spec (text_startIndex node) syncPos); [|lia].
    destruct (Nat.ltb_spec syncPos (text_endIndex node)); [|lia].
    cbn [andb]. fold content relativePos s w.
    unfold substring at 1. now rewrite Nat.max_0_l, Nat.min_0_l, Nat.sub_0_r.
  - rewrite Hs.
    rewrite <- (take_drop s content) at 4. f_equal.
    rewrite <- (take_drop (w + 1 - s) (drop s content)) at 2. f_equal.
    rewrite drop_drop. f_equal. lia.
Qed.

Lemma word_span_within_run_witness :
  RenderedTextNode
    {| text_id := "text-0"; text_content := "Hi there, you";
       text_startIndex := 10; text_endIndex := 23 |}
    (Some 14) (Some editor)
  = Highlighted "Hi " "there" ", you".
Proof.
  destruct (word_span_within_run
              {| text_id := "text-0"; text_content := "Hi there, you";
                 text_startIndex := 10; text_endIndex := 23 |} 14)
    as (_ & _ & _ & _ & _ & _ & H & _).
  - simpl. lia.
  - simpl. lia.
  - exact H.
Defined.

(** C8, as stated, fails: a carriage return is not among the listed
    characters, and the word span of offset 0 in [a], carriage return, [b]
    stops before it. *)
Lemma word_span_stops_at_carriage_return :
  ~ (forall content relativePos,
        relativePos < String.length content ->
        stops_at_listed_boundary content relativePos).
Proof.
  intros H.
  specialize (H (String "a" (String (ascii_of_nat 13) "b")) 0).
  destruct H as [_ [H|(ch & H1 & H2)]].
  - simpl. lia.
  - vm_compute in H. lia.
  - vm_compute in H1. injection H1 as <-. vm_compute in H2. discriminate.
Qed.

(** * Beyond the claims *)

(** ** Tokenizer: where tokens come from *)

Lemma comment_end_length s n : comment_end s = Some n -> 3 <= n.
Proof.
  revert n; induction s as [|c r IH]; intros n; [discriminate|].
  change (comment_end (String c r))
    with (if prefix "-->" (String c r) then Some 3
          else option_map S (comment_end r)).
  destruct (prefix "-->" (String c r)).
  - now intros [= <-].
  - destruct (comment_end r) as [k|]; [|discriminate].
    intros [= <-]. specialize (IH k eq_refl). lia.
Qed.

Lemma tokenRegex_at_length s alt len :
  tokenRegex_at s = Some (alt, len) -> 1 <= len.
Proof.
  unfold tokenRegex_at.
  destruct (match_comment s) as [n|] eqn:E1.
  { intros [= <- <-]. unfold match_comment in E1.
    destruct (prefix "<!--" s); [|discriminate].
    destruct (comment_end (drop 4 s)); [|discriminate].
    injection E1 as <-. lia. }
  destruct (match_closeTag s) as [n|] eqn:E2.
  { intros [= <- <-]. unfold match_closeTag in E2.
    destruct s as [|c1 [|c2 r]]; try discriminate.
    destruct ((c1 =? "<")%char && (c2 =? "/")%char); [|discriminate].
    destruct (many is_name_char r =? 0); [discriminate|].
    destruct (head_is ">" _); [|discriminate]. injection E2 as <-. lia. }
  destruct (match_openTag s) as [n|] eqn:E3.
  { intros [= <- <-]. unfold match_openTag in E3.
    destruct s as [|c r]; [discriminate|].
    destruct (c =? "<")%char; [|discriminate].
    destruct (many is_name_char r =? 0); [discriminate|].
    destruct (open_tail _ _); [|discriminate]. injection E3 as <-. lia. }
  unfold match_text. destruct (many not_lt s =? 0) eqn:E; [discriminate|].
  apply Nat.eqb_neq in E. intros [= <- <-]. lia.
Qed.

(** Every token is pushed for a match of [tokenRegex] at some offset [p] of
    the input. *)
Lemma tokenize_from_origin s index skip t :
  In t (tokenize_from s index skip) ->
  exists p alt len,
    index + skip <= p /\ p < index + String.length s
    /\ tokenRegex_at (drop (p - index) s) = Some (alt, len)
    /\ In t (push_token alt (take len (drop (p - index) s)) p).
Proof.
  revert index skip; induction s as [|c r IH]; intros index skip Hin;
    [destruct Hin|].
  assert (Hshift : forall k, index + skip <= S index + k ->
             In t (tokenize_from r (S index) k) ->
             exists p alt len,
               index + skip <= p /\ p < index + String.length (String c r)
               /\ tokenRegex_at (drop (p - index) (String c r))
                  = Some (alt, len)
               /\ In t (push_token alt
                          (take len (drop (p - index) (String c r))) p)).
  { intros k Hk Hin'.
    destruct (IH (S index) k Hin') as (p & alt & len & H1 & H2 & H3 & H4).
    exists p, alt, len.
    replace (p - index) with (S (p - S index)) by lia.
    cbn [drop String.length]. repeat split; auto; lia. }
  cbn [tokenize_from] in Hin.
  destruct skip as [|k].
  - destruct (tokenRegex_at (String c r)) as [[alt len]|] eqn:E.
    + apply in_app_or in Hin as [Hin|Hin].
      * exists index, alt, len. rewrite Nat.sub_diag. cbn [drop String.length].
        repeat split; auto; lia.
      * apply Hshift in Hin; auto. lia.
    + apply Hshift in Hin; auto. lia.
  - apply Hshift in Hin; auto. lia.
Qed.

Lemma push_token_nonempty alt fullMatch index t :
  In t (push_token alt fullMatch index) ->
  fullMatch <> "" ->
  startIndex t < endIndex t.
Proof.
  intros Hin Hne.
  assert (Hlen : 0 < String.length fullMatch).
  { destruct fullMatch; [congruence|simpl; lia]. }
  unfold push_token in Hin. destruct alt.
  - destruct Hin as [<-|[]]; simpl; lia.
  - destruct Hin as [<-|[]]; simpl; lia.
  - destruct (tagMatch fullMatch); [|destruct Hin].
    destruct Hin as [<-|[]]; simpl; lia.
  - destruct (0 <? String.length (trim fullMatch)) eqn:E.
    + destruct Hin as [<-|[]]; simpl.
      apply Nat.ltb_lt in E.
      pose proof (trim_length fullMatch). lia.
    + destruct (0 <? String.length fullMatch); [|destruct Hin].
      destruct Hin as [<-|[]]; simpl; lia.
Qed.

Lemma matched_nonempty s p index len alt :
  p < index + String.length s -> index <= p ->
  tokenRegex_at (drop (p - index) s) = Some (alt, len) ->
  take len (drop (p - index) s) <> "".
Proof.
  intros Hp Hi H. apply tokenRegex_at_length in H.
  intros Hz. apply length_zero in Hz.
  rewrite length_take, length_drop in Hz. lia.
Qed.

(** X1. The tokens of every input are not empty, lie within the input and
    follow one another without overlap. *)
Theorem tokens_in_order_within_input :
  forall xmlString,
    (forall t, In t (tokenize xmlString) ->
               startIndex t < endIndex t <= String.length xmlString)
    /\ (forall i j ti tj,
          i < j ->
          nth_error (tokenize xmlString) i = Some ti ->
          nth_error (tokenize xmlString) j = Some tj ->
          endIndex ti <= startIndex tj).
Proof.
  intros xmlString. split.
  - intros t Hin.
    destruct (tokenize_from_origin _ _ _ _ Hin)
      as (p & alt & len & H1 & H2 & H3 & H4).
    split.
    + eapply push_token_nonempty; [exact H4|].
      apply (matched_nonempty _ _ _ _ _ H2 H1 H3).
    + destruct (push_token_span _ _ _ _ H4) as (_ & _ & ->).
      rewrite length_take, length_drop. lia.
  - apply (ordered_from_nth 0), tokenize_ordered.
Qed.

(** ** Tokenizer: the shape of tokens *)

Lemma take_take k n s : take k (take n s) = take (Nat.min k n) s.
Proof.
  revert n s; induction k as [|k IH]; intros [|n] [|c r]; simpl; auto.
  now rewrite IH.
Qed.

Lemma drop_take m n s : drop m (take n s) = take (n - m) (drop m s).
Proof.
  revert n s; induction m as [|m IH]; intros n s; simpl.
  - now rewrite Nat.sub_0_r.
  - destruct n as [|n]; destruct s as [|c r]; simpl; auto.
    now destruct (n - m).
Qed.

Lemma take_length_take n s : take (String.length (take n s)) s = take n s.
Proof.
  revert s; induction n as [|n IH]; intros [|c r]; simpl; auto.
  now rewrite IH.
Qed.

Lemma trim_end_prefix s : trim_end s = take (String.length (trim_end s)) s.
Proof.
  induction s as [|c r IH]; simpl; auto.
  destruct (trim_end r) as [|x y] eqn:E.
  - destruct (is_space c); reflexivity.
  - simpl in *. now rewrite <- IH.
Qed.

Lemma all_chars_take p n s : all_chars p s = true -> all_chars p (take n s) = true.
Proof.
  revert s; induction n as [|n IH]; intros [|c r]; simpl; auto.
  intros [Hc Hr]%andb_true_iff. rewrite Hc. simpl. auto.
Qed.

Lemma all_chars_drop p n s : all_chars p s = true -> all_chars p (drop n s) = true.
Proof.
  revert s; induction n as [|n IH]; intros [|c r]; simpl; auto.
  intros [Hc Hr]%andb_true_iff. auto.
Qed.

Lemma all_chars_trim p s : all_chars p s = true -> all_chars p (trim s) = true.
Proof.
  intros H. unfold trim. rewrite trim_end_prefix.
  now apply all_chars_take, all_chars_drop.
Qed.

Lemma to_lower_name c :
  is_name_char c = true ->
  is_name_char (to_lower c) && negb (is_upper (to_lower c)) = true.
Proof.
  destruct c as [b0 b1 b2 b3 b4 b5 b6 b7].
  destruct b0, b1, b2, b3, b4, b5, b6, b7; vm_compute; congruence.
Qed.

Lemma toLowerCase_folded name :
  name <> "" -> all_chars is_name_char name = true ->
  folded_name (toLowerCase name).
Proof.
  intros Hne Hall. split.
  - destruct name; [congruence|discriminate].
  - clear Hne. induction name as [|c r IH]; simpl in *; auto.
    apply andb_true_iff in Hall as [Hc Hr].
    rewrite (to_lower_name c Hc). simpl. auto.
Qed.

Lemma take_nonempty n s : 0 < n -> s <> "" -> take n s <> "".
Proof. destruct n, s; simpl; try lia; congruence. Qed.

Lemma tagMatch_name s name :
  tagMatch s = Some name ->
  name <> "" /\ all_chars is_name_char name = true.
Proof.
  induction s as [|c r IH]; [discriminate|]. cbn [tagMatch].
  destruct ((c =? "<")%char && negb (many is_name_char r =? 0)) eqn:E; auto.
  intros [= <-]. apply andb_true_iff in E as [_ E].
  apply negb_true_iff, Nat.eqb_neq in E. split; [|apply many_all].
  apply take_nonempty; [lia|]. destruct r; [simpl in E; lia | discriminate].
Qed.

Lemma prefix_take a n s :
  prefix a s = true -> String.length a <= n -> prefix a (take n s) = true.
Proof.
  revert n s; induction a as [|x a IH]; intros n s H Hn;
    [now destruct (take n s)|].
  destruct s as [|c r]; [discriminate|].
  destruct n as [|n]; [simpl in Hn; lia|].
  simpl in *. destruct (ascii_dec x c); [|discriminate].
  apply IH; auto. lia.
Qed.

Lemma match_closeTag_name s len :
  match_closeTag s = Some len ->
  let name := slice (take len s) 2 1 in
  name <> "" /\ all_chars is_name_char name = true.
Proof.
  unfold match_closeTag.
  destruct s as [|c1 [|c2 r]]; try discriminate.
  destruct ((c1 =? "<")%char && (c2 =? "/")%char); [|discriminate].
  destruct (many is_name_char r =? 0) eqn:E; [discriminate|].
  apply Nat.eqb_neq in E.
  destruct (head_is ">" (drop (many is_name_char r) r)) eqn:H; [|discriminate].
  intros [= <-]. cbv zeta.
  assert (Hlt : many is_name_char r < String.length r).
  { pose proof (length_drop (many is_name_char r) r) as Hd.
    destruct (drop (many is_name_char r) r); [discriminate|].
    simpl in Hd. lia. }
  set (n := many is_name_char r) in *.
  assert (Hs : slice (take (n + 3) (String c1 (String c2 r))) 2 1 = take n r).
  { unfold slice. replace (n + 3) with (S (S (S n))) by lia.
    change (take (S (S (S n))) (String c1 (String c2 r)))
      with (String c1 (String c2 (take (S n) r))).
    cbn [drop String.length].
    replace (S (S (String.length (take (S n) r))) - 1 - 2) with n
      by (rewrite length_take; lia).
    rewrite take_take. f_equal. lia. }
  rewrite Hs. split; [|apply many_all].
  apply take_nonempty; [lia|]. destruct r; [simpl in Hlt; lia|discriminate].
Qed.

Lemma tokenRegex_at_alt s alt len :
  tokenRegex_at s = Some (alt, len) ->
  match alt with
  | Comment => match_comment s = Some len
  | CloseTag => match_closeTag s = Some len
  | OpenTag => match_openTag s = Some len
  | Text => len = many not_lt s /\ 0 < len
  end.
Proof.
  intros H. destruct alt; [| | |now apply tokenRegex_at_Text];
    unfold tokenRegex_at in H;
    destruct (match_comment s); try (injection H as <-; reflexivity);
    try discriminate;
    destruct (match_closeTag s); try (injection H as <-; reflexivity);
    try discriminate;
    destruct (match_openTag s); try (injection H as <-; reflexivity);
    try discriminate;
    destruct (match_text s); discriminate.
Qed.

(** X2. What each kind of token carries: an open, self-closing or close
    token a case-folded tag name, a text token a content that is not empty
    and has no [<], a comment token its text. *)
Theorem token_shapes :
  forall xmlString t,
    In t (tokenize xmlString) ->
    match type t with
    | open | self_closing =>
        (exists name, tag t = Some name /\ folded_name name)
        /\ (exists a, attributes t = Some a) /\ content t = None
    | close =>
        (exists name, tag t = Some name /\ folded_name name)
        /\ attributes t = None /\ content t = None
    | text =>
        tag t = None /\ attributes t = None
        /\ exists c, content t = Some c /\ c <> ""
                     /\ all_chars not_lt c = true
    | comment =>
        tag t = None /\ attributes t = None
        /\ exists c, content t = Some c /\ prefix "<!--" c = true
    end.
Proof.
  intros xmlString t Hin.
  destruct (tokenize_from_origin _ _ _ _ Hin)
    as (p & alt & len & H1 & H2 & H3 & H4).
  rewrite Nat.sub_0_r in *. set (s := drop p xmlString) in *.
  pose proof (tokenRegex_at_alt _ _ _ H3) as Ha.
  unfold push_token in H4. destruct alt.
  - destruct H4 as [<-|[]]. cbn. repeat split. eexists. split; [reflexivity|].
    unfold match_comment in Ha.
    destruct (prefix "<!--" s) eqn:Hp; [|discriminate].
    destruct (comment_end (drop 4 s)) as [k|]; [|discriminate].
    injection Ha as <-. apply prefix_take; auto. simpl. lia.
  - destruct H4 as [<-|[]]. cbn. repeat split. eexists. split; [reflexivity|].
    destruct (match_closeTag_name _ _ Ha). now apply toLowerCase_folded.
  - destruct (tagMatch (take len s)) as [name|] eqn:Hm; [|destruct H4].
    destruct (tagMatch_name _ _ Hm) as [Hne Hall].
    destruct H4 as [<-|[]].
    destruct (ends_with (take len s) "/>"); cbn; repeat split; eauto;
      eexists; (split; [reflexivity|]); now apply toLowerCase_folded.
  - destruct Ha as [-> Hpos].
    assert (Hall : all_chars not_lt (take (many not_lt s) s) = true)
      by apply many_all.
    destruct (0 <? String.length (trim (take (many not_lt s) s))) eqn:E.
    + destruct H4 as [<-|[]]. cbn. repeat split.
      eexists. split; [reflexivity|]. split; [|now apply all_chars_trim].
      apply Nat.ltb_lt in E. intros Hz. rewrite Hz in E. simpl in E. lia.
    + destruct (0 <? String.length (take (many not_lt s) s)) eqn:E';
        [|destruct H4].
      destruct H4 as [<-|[]]. cbn. repeat split.
      eexists. split; [reflexivity|]. split; [|exact Hall].
      apply Nat.ltb_lt in E'. intros Hz. rewrite Hz in E'. simpl in E'. lia.
Qed.

(** X3. The content of a token is the source text at its start: a comment's
    content is its whole span, and a text token's content is the characters
    from its start on, which end at or before its end. *)
Theorem token_content_is_source_text :
  forall xmlString t c,
    In t (tokenize xmlString) ->
    content t = Some c ->
    c = substring xmlString (startIndex t) (startIndex t + String.length c)
    /\ startIndex t + String.length c <= endIndex t
    /\ (type t = comment -> startIndex t + String.length c = endIndex t).
Proof.
  intros xmlString t c Hin Hc.
  destruct (tokenize_from_origin _ _ _ _ Hin)
    as (p & alt & len & H1 & H2 & H3 & H4).
  rewrite Nat.sub_0_r in *. set (s := drop p xmlString) in *.
  assert (Hsub : forall a k, substring xmlString a (a + k)
                             = take k (drop a xmlString)).
  { intros a k. unfold substring. rewrite Nat.max_r, Nat.min_l by lia.
    f_equal. lia. }
  unfold push_token in H4. destruct alt.
  - destruct H4 as [<-|[]]. cbn [content startIndex endIndex type] in *. injection Hc as <-.
    rewrite Hsub. fold s. rewrite take_length_take. auto.
  - destruct H4 as [<-|[]]. discriminate.
  - destruct (tagMatch (take len s)); [|destruct H4].
    destruct H4 as [<-|[]]. discriminate.
  - destruct (0 <? String.length (trim (take len s))) eqn:E.
    + destruct H4 as [<-|[]]. cbn [content startIndex endIndex type] in *. injection Hc as <-.
      rewrite Hsub. set (fm := take len s).
      pose proof (trim_length fm) as Hlen.
      pose proof (many_le is_space fm) as Hm.
      assert (Hfm : String.length fm <= len)
        by (unfold fm; rewrite length_take; lia).
      assert (Ht : trim fm = take (String.length (trim fm))
                                  (drop (many is_space fm) fm))
        by (unfold trim; apply trim_end_prefix).
      split; [|split; [lia|discriminate]].
      rewrite Ht at 1.
      replace (drop (many is_space fm) fm)
        with (take (len - many is_space fm)
                (drop (p + many is_space fm) xmlString)).
      * rewrite take_take. f_equal. apply Nat.min_l. lia.
      * generalize (many is_space fm). intros m.
        unfold fm, s. now rewrite drop_take, drop_drop.
    + destruct (0 <? String.length (take len s)); [|destruct H4].
      destruct H4 as [<-|[]]. cbn [content startIndex endIndex type] in *. injection Hc as <-.
      rewrite Hsub. fold s. rewrite take_length_take.
      split; [reflexivity|]. split; [lia|discriminate].
Qed.

Lemma token_content_is_source_text_witness :
  Some "Hi" = Some (substring sample 37 (37 + 2)) /\ 37 + 2 <= 40.
Proof.
  destruct (token_content_is_source_text sample
              {| type := text; tag := None; attributes := None;
                 content := Some "Hi"; startIndex := 37; endIndex := 40 |}
              "Hi") as (H1 & H2 & _).
  - vm_compute. do 5 right. left. reflexivity.
  - reflexivity.
  - split; [now rewrite H1 at 1 | exact H2].
Defined.

Lemma token_shapes_witness :
  exists name, Some "emphasis" = Some name /\ folded_name name.
Proof.
  pose proof (token_shapes
                ("<EMPHASIS role='bold'>x")
                {| type := open; tag := Some "emphasis";
                   attributes := Some [("role", "bold")]; content := None;
                   startIndex := 0; endIndex := 22 |}) as H.
  cbn [type tag] in H. apply H. vm_compute. left. reflexivity.
Defined.

Lemma tokens_in_order_within_input_witness : 37 < 40 <= 95.
Proof.
  apply (proj1 (tokens_in_order_within_input sample)
           {| type := text; tag := None; attributes := None;
              content := Some "Hi"; startIndex := 37; endIndex := 40 |}).
  vm_compute. do 5 right. left. reflexivity.
Defined.

(** ** Tokenizer: what no token covers *)








(** ** Tokenizer: tags and comments are delimited *)

Lemma open_tail_end st s k :
  open_tail st s = Some k ->
  0 < k <= String.length s /\ char_at s (k - 1) = Some ">"%char.
Proof.
  revert st k; induction s as [|c r IH]; intros st k H; [discriminate|].
  assert (Hgo : forall st', option_map S (open_tail st' r) = Some k ->
            0 < k <= String.length (String c r)
            /\ char_at (String c r) (k - 1) = Some ">"%char).
  { intros st' Hs. destruct (open_tail st' r) as [j|] eqn:E; [|discriminate].
    injection Hs as <-. destruct (IH _ _ E) as [Hj Hc].
    simpl String.length. split; [lia|].
    replace (S j - 1) with (S (j - 1)) by lia. exact Hc. }
  assert (Hend : (c =? ">")%char = true -> Some 1 = Some k ->
            0 < k <= String.length (String c r)
            /\ char_at (String c r) (k - 1) = Some ">"%char).
  { intros Hc [= <-]. apply Ascii.eqb_eq in Hc. subst c.
    simpl. split; [lia|reflexivity]. }
  cbn [open_tail] in H. destruct st.
  - destruct (is_space c); [eauto|].
    destruct (c =? "/")%char; [eauto|].
    destruct (c =? ">")%char eqn:E; [auto|discriminate].
  - destruct (is_space c); [eauto|].
    destruct (is_attr_char c); [eauto|].
    destruct (c =? "/")%char; [eauto|].
    destruct (c =? ">")%char eqn:E; [auto|discriminate].
  - destruct (is_attr_char c); [eauto|].
    destruct (c =? "=")%char; [eauto|discriminate].
  - destruct (c =? dquote)%char; [eauto|].
    destruct (c =? squote)%char; [eauto|discriminate].
  - destruct (c =? dquote)%char; eauto.
  - destruct (c =? squote)%char; eauto.
  - destruct (c =? ">")%char eqn:E; [auto|discriminate].
Qed.

Lemma prefix_cons a p s :
  prefix (String a p) s = true ->
  exists r, s = String a r /\ prefix p r = true.
Proof.
  destruct s as [|c r]; [discriminate|].
  change (prefix (String a p) (String c r))
    with (if ascii_dec a c then prefix p r else false).
  destruct (ascii_dec a c) as [->|]; [eauto|discriminate].
Qed.

Lemma comment_end_end s k :
  comment_end s = Some k ->
  k <= String.length s /\ char_at s (k - 1) = Some ">"%char.
Proof.
  revert k; induction s as [|c r IH]; intros k H; [discriminate|].
  change (comment_end (String c r))
    with (if prefix "-->" (String c r) then Some 3
          else option_map S (comment_end r)) in H.
  destruct (prefix "-->" (String c r)) eqn:E.
  - injection H as <-.
    destruct (prefix_cons _ _ _ E) as (r1 & -> & E1).
    destruct (prefix_cons _ _ _ E1) as (r2 & -> & E2).
    destruct (prefix_cons _ _ _ E2) as (r3 & -> & _).
    simpl. split; [lia|reflexivity].
  - destruct (comment_end r) as [j|] eqn:Ej; [|discriminate].
    injection H as <-. destruct (IH _ eq_refl) as [Hj Hc].
    pose proof (comment_end_length _ _ Ej).
    simpl String.length. split; [lia|].
    replace (S j - 1) with (S (j - 1)) by lia. exact Hc.
Qed.

Lemma prefix_head_is a p s :
  prefix (String a p) s = true -> char_at s 0 = Some a.
Proof.
  intros H. destruct (prefix_cons _ _ _ H) as (r & -> & _). reflexivity.
Qed.

(** What the first three alternatives match starts with [<], ends with [>]
    and lies within the input. *)
Lemma tag_match_delimited s alt len :
  tokenRegex_at s = Some (alt, len) ->
  alt <> Text ->
  len <= String.length s
  /\ char_at s 0 = Some "<"%char /\ char_at s (len - 1) = Some ">"%char.
Proof.
  intros H Hne. pose proof (tokenRegex_at_alt _ _ _ H) as Ha.
  destruct alt; [| | |congruence].
  - unfold match_comment in Ha.
    destruct (prefix "<!--" s) eqn:Hp; [|discriminate].
    destruct (comment_end (drop 4 s)) as [k|] eqn:Hk; [|discriminate].
    injection Ha as <-. destruct (comment_end_end _ _ Hk) as [Hle Hc].
    pose proof (comment_end_length _ _ Hk).
    rewrite length_drop in Hle. rewrite char_at_drop in Hc.
    split; [lia|]. split; [now apply prefix_head_is in Hp|].
    rewrite <- Hc. f_equal. lia.
  - unfold match_closeTag in Ha.
    destruct s as [|c1 [|c2 r]]; try discriminate.
    destruct (c1 =? "<")%char eqn:E1; [|discriminate].
    destruct (c2 =? "/")%char; [|discriminate]. cbn [andb] in Ha.
    destruct (many is_name_char r =? 0); [discriminate|].
    destruct (head_is ">" (drop (many is_name_char r) r)) eqn:Hh;
      [|discriminate].
    injection Ha as <-. apply Ascii.eqb_eq in E1. subst c1.
    pose proof (length_drop (many is_name_char r) r) as Hd.
    pose proof (char_at_drop (many is_name_char r) 0 r) as Hc.
    destruct (drop (many is_name_char r) r) as [|x y]; [discriminate|].
    simpl in Hh, Hd, Hc. apply Ascii.eqb_eq in Hh. subst x.
    simpl String.length. split; [lia|]. split; [reflexivity|].
    replace (many is_name_char r + 3 - 1)
      with (S (S (many is_name_char r + 0))) by lia.
    symmetry. exact Hc.
  - unfold match_openTag in Ha.
    destruct s as [|c r]; [discriminate|].
    destruct (c =? "<")%char eqn:E1; [|discriminate].
    destruct (many is_name_char r =? 0); [discriminate|].
    destruct (open_tail AfterItem (drop (many is_name_char r) r)) as [k|] eqn:Hk;
      [|discriminate].
    injection Ha as <-. apply Ascii.eqb_eq in E1. subst c.
    destruct (open_tail_end _ _ _ Hk) as [Hle Hc].
    rewrite length_drop in Hle. rewrite char_at_drop in Hc.
    simpl String.length. split; [lia|]. split; [reflexivity|].
    rewrite <- Hc.
    replace (S (many is_name_char r + k) - 1)
      with (S (many is_name_char r + (k - 1))) by lia.
    reflexivity.
Qed.

(** X5. Every open, self-closing, close and comment token starts at a [<]
    of the input and ends just after a [>]. *)
Theorem tag_tokens_delimited :
  forall xmlString t,
    In t (tokenize xmlString) ->
    type t <> text ->
    char_at xmlString (startIndex t) = Some "<"%char
    /\ char_at xmlString (endIndex t - 1) = Some ">"%char.
Proof.
  intros xmlString t Hin Ht.
  destruct (tokenize_from_origin _ _ _ _ Hin)
    as (p & alt & len & H1 & H2 & H3 & H4).
  rewrite Nat.sub_0_r in *.
  assert (Halt : alt <> Text).
  { intros ->. destruct (tokenRegex_at_Text _ _ H3) as [-> Hpos].
    rewrite push_token_text in H4.
    - destruct H4 as [<-|[]]. now apply Ht.
    - intros Hz. apply length_zero in Hz.
      rewrite length_take, length_drop in Hz. lia. }
  destruct (tag_match_delimited _ _ _ H3 Halt) as (Hle & Hs & He).
  pose proof (tokenRegex_at_length _ _ _ H3) as Hpos.
  rewrite char_at_drop in Hs, He. rewrite Nat.add_0_r in Hs.
  assert (Hspan : startIndex t = p /\ endIndex t = p + len).
  { unfold push_token in H4. rewrite length_take, Nat.min_l in H4 by exact Hle.
    destruct alt; [| | |congruence].
    - destruct H4 as [<-|[]]. auto.
    - destruct H4 as [<-|[]]. auto.
    - destruct (tagMatch _); [|destruct H4]. destruct H4 as [<-|[]]. auto. }
  destruct Hspan as [-> ->]. split; [exact Hs|].
  replace (p + len - 1) with (p + (len - 1)) by lia. exact He.
Qed.

Lemma tag_tokens_delimited_witness :
  char_at sample 40 = Some "<"%char /\ char_at sample (62 - 1) = Some ">"%char.
Proof.
  apply (tag_tokens_delimited sample
           {| type := open; tag := Some "emphasis";
              attributes := Some [("role", "bold")]; content := None;
              startIndex := 40; endIndex := 62 |}).
  - vm_compute. do 6 right. left. reflexivity.
  - discriminate.
Defined.
